(** * CinderBox2D: read-only traversals of the dynamic AABB tree and the
      contact-type registry.

    Shallow embedding of
    - [cb2DynamicTree::GetUserData], [GetFatAABB], [Query] and [RayCast]
      (Collision/cb2DynamicTree.h), and
    - [cb2Contact::AddType], [InitializeRegisters] and [Create]
      (Dynamics/Contacts/cb2Contact.cpp).

    Modelling conventions.
    - [int] node indices are [Z]; the traversals only compare and copy them.
    - A [float] value is a rational [Q].  Comparison, negation, [cb2Min],
      [cb2Max] and [cb2Abs] are exact on floats and are modelled exactly.
      The rounded operations that [RayCast] performs on its way to the
      segment box and to the separating-axis value ([+], [-] and [*]) are
      the fields of a [FloatArith] record that the traversal takes as a
      parameter; [float32] is the binary32 instance with
      round-to-nearest-even.  Each operation rounds on its own: fused
      multiply-add and wider intermediate precision are outside the model,
      and so are infinities and NaN.
    - [cb2Assert] is modelled as in a debug build: a failed assertion ends
      the call with [AssertFailed].
    - Reading [m_nodes + i] outside the node array ends the call with
      [OutOfBounds] (the C++ behaviour is undefined there).
    - The [while] loops run on fuel, one unit per evaluation of the loop
      condition; [OutOfFuel] is not a behaviour of the program.
    - A visitor is a stateful object: its callback is a function from the
      visitor state to the returned value and the next visitor state.  The
      visitor state is disjoint from the tree. *)

From Stdlib Require Import ZArith QArith Qround Qabs Lqa Lia List Bool.
Import ListNotations.

Local Open Scope Z_scope.

(** ** Outcomes of a call *)

Inductive outcome (A : Type) : Type :=
| Returned (a : A)
| AssertFailed
| OutOfBounds
| OutOfFuel.

Arguments Returned {A} a.
Arguments AssertFailed {A}.
Arguments OutOfBounds {A}.
Arguments OutOfFuel {A}.

(** ** Scalars and vectors *)

(** [a < b] on floats. *)
Definition Qltb (a b : Q) : bool := negb (Qle_bool b a).

Record Vec2 : Type := mkVec2 { vx : Q; vy : Q }.

Record cb2AABB : Type := mkAABB { lowerBound : Vec2; upperBound : Vec2 }.

Definition vsub (a b : Vec2) : Vec2 := mkVec2 (vx a - vx b) (vy a - vy b).
Definition vadd (a b : Vec2) : Vec2 := mkVec2 (vx a + vx b) (vy a + vy b).
Definition vscale (s : Q) (a : Vec2) : Vec2 := mkVec2 (s * vx a) (s * vy a).
Definition lengthSquared (a : Vec2) : Q := vx a * vx a + vy a * vy a.

(** The rounded operations of [float]: each takes two floats to the float
    the machine stores for their sum, difference or product. *)
Record FloatArith : Type := mkFloatArith {
  fadd : Q -> Q -> Q;
  fsub : Q -> Q -> Q;
  fmul : Q -> Q -> Q
}.

(** [operator+], [operator-] and the scalar [operator*] of [ci::Vec2f],
    component by component. *)
Definition fvadd (ar : FloatArith) (a b : Vec2) : Vec2 :=
  mkVec2 (fadd ar (vx a) (vx b)) (fadd ar (vy a) (vy b)).
Definition fvsub (ar : FloatArith) (a b : Vec2) : Vec2 :=
  mkVec2 (fsub ar (vx a) (vx b)) (fsub ar (vy a) (vy b)).
Definition fvscale (ar : FloatArith) (s : Q) (a : Vec2) : Vec2 :=
  mkVec2 (fmul ar s (vx a)) (fmul ar s (vy a)).

(** Arithmetic without rounding. *)
Definition exact_arith : FloatArith := mkFloatArith Qplus Qminus Qmult.

(** *** IEEE 754 binary32, round to nearest, ties to even *)

(** [floor (log2 q)] for [0 < q]. *)
Definition floor_log2 (q : Q) : Z :=
  let e := Z.log2 (Qnum q) - Z.log2 (Zpos (Qden q)) in
  if Qle_bool (Qpower 2 e) q then e else e - 1.

(** The integer nearest to [x], the even one of two at the same distance. *)
Definition round_half_even (x : Q) : Z :=
  let f := Qfloor x in
  let d := (x - inject_Z f)%Q in
  if Qltb d (1 # 2) then f
  else if Qltb (1 # 2) d then f + 1
  else if Z.even f then f else f + 1.

(** The binary32 value nearest to [q]: 24 significant bits, exponents from
    [-126] (subnormals included).  Values beyond the largest finite float
    are outside the model. *)
Definition round32 (q : Q) : Q :=
  if Qeq_bool q 0 then 0%Q
  else
    let a := Qabs q in
    let e := Z.max (floor_log2 a) (-126) in
    let ulp := Qpower 2 (e - 23) in
    let m := Qred (inject_Z (round_half_even (a / ulp)%Q) * ulp)%Q in
    if Qltb q 0 then (- m)%Q else m.

Definition float32 : FloatArith :=
  mkFloatArith (fun a b => round32 (a + b)%Q)
               (fun a b => round32 (a - b)%Q)
               (fun a b => round32 (a * b)%Q).

(** Modelled from the spec: the helpers of Common/cb2Math.h, which is not
    among the sources ([cb2Min], [cb2Max], [cb2Abs], [cb2Dot] and the
    scalar-vector [cb2Cross]); the spec names them through "segment
    bounding box" and "perpendicular-axis projection against the box
    half-extents". *)
Definition cb2MinF (a b : Q) : Q := if Qltb a b then a else b.
Definition cb2MaxF (a b : Q) : Q := if Qltb b a then a else b.
Definition cb2AbsF (a : Q) : Q := if Qltb 0 a then a else - a.
Definition cb2Min (a b : Vec2) : Vec2 :=
  mkVec2 (cb2MinF (vx a) (vx b)) (cb2MinF (vy a) (vy b)).
Definition cb2Max (a b : Vec2) : Vec2 :=
  mkVec2 (cb2MaxF (vx a) (vx b)) (cb2MaxF (vy a) (vy b)).
Definition cb2Abs (a : Vec2) : Vec2 := mkVec2 (cb2AbsF (vx a)) (cb2AbsF (vy a)).
Definition cb2Dot (ar : FloatArith) (a b : Vec2) : Q :=
  fadd ar (fmul ar (vx a) (vx b)) (fmul ar (vy a) (vy b)).
Definition cb2Cross (s : Q) (a : Vec2) : Vec2 := mkVec2 (- s * vy a) (s * vx a).

(** Modelled from the spec: [cb2AABB::GetCenter], [cb2AABB::GetExtents],
    [cb2AABB::Contains] and [cb2TestOverlap] of Collision/cb2Collision.h,
    which is not among the sources.  The spec: an AABB is "represented by
    lower and upper corner points"; a node's box "contains" the boxes of its
    children ("only enclosure"); the traversals "prune on box-box
    non-overlap". *)
Definition GetCenter (ar : FloatArith) (b : cb2AABB) : Vec2 :=
  fvscale ar (1 # 2) (fvadd ar (lowerBound b) (upperBound b)).
Definition GetExtents (ar : FloatArith) (b : cb2AABB) : Vec2 :=
  fvscale ar (1 # 2) (fvsub ar (upperBound b) (lowerBound b)).

Definition Contains (outer inner : cb2AABB) : bool :=
  Qle_bool (vx (lowerBound outer)) (vx (lowerBound inner)) &&
  Qle_bool (vy (lowerBound outer)) (vy (lowerBound inner)) &&
  Qle_bool (vx (upperBound inner)) (vx (upperBound outer)) &&
  Qle_bool (vy (upperBound inner)) (vy (upperBound outer)).

Definition cb2TestOverlap (a b : cb2AABB) : bool :=
  let d1 := vsub (lowerBound b) (upperBound a) in
  let d2 := vsub (lowerBound a) (upperBound b) in
  if Qltb 0 (vx d1) || Qltb 0 (vy d1) then false
  else if Qltb 0 (vx d2) || Qltb 0 (vy d2) then false
  else true.

(** ** The node pool and the tree *)

Definition cb2_nullNode : Z := -1.

(** [userData] is an opaque handle ([void*]); [parent] is the union field
    [parent]/[next]. *)
Record cb2TreeNode : Type := mkNode {
  aabb : cb2AABB;
  userData : Z;
  parent : Z;
  child1 : Z;
  child2 : Z;
  height : Z
}.

Definition IsLeaf (n : cb2TreeNode) : bool := child1 n =? cb2_nullNode.

Record cb2DynamicTree : Type := mkTree {
  m_root : Z;
  m_nodes : list cb2TreeNode;
  m_nodeCount : Z;
  m_nodeCapacity : Z;
  m_freeList : Z;
  m_path : Z;
  m_insertionCount : Z
}.

(** [m_nodes + i]: defined inside the array only. *)
Definition node_at (t : cb2DynamicTree) (i : Z) : option cb2TreeNode :=
  if 0 <=? i then nth_error (m_nodes t) (Z.to_nat i) else None.

(** ** GetUserData and GetFatAABB *)

Definition GetUserData (t : cb2DynamicTree) (proxyId : Z) : outcome Z :=
  if (0 <=? proxyId) && (proxyId <? m_nodeCapacity t) then
    match node_at t proxyId with
    | Some n => Returned (userData n)
    | None => OutOfBounds
    end
  else AssertFailed.

Definition GetFatAABB (t : cb2DynamicTree) (proxyId : Z) : outcome cb2AABB :=
  if (0 <=? proxyId) && (proxyId <? m_nodeCapacity t) then
    match node_at t proxyId with
    | Some n => Returned (aabb n)
    | None => OutOfBounds
    end
  else AssertFailed.

(** ** Query *)

(** The visitor of [Query]: [QueryCallback(int)] on a visitor in state [S]. *)
Definition QueryVisitor (S : Type) : Type := S -> Z -> bool * S.

(** The loop of [Query].  The stack is a list with its top first, so
    pushing [child1] and then [child2] leaves [child2] on top.  The tree is
    the object the method runs on; it is handed back with the visitor. *)
Fixpoint Query_loop {S : Type} (fuel : nat) (callback : QueryVisitor S)
    (t : cb2DynamicTree) (box : cb2AABB) (stack : list Z) (s : S)
    : outcome (cb2DynamicTree * S) :=
  match fuel with
  | O => OutOfFuel
  | Datatypes.S fuel' =>
    match stack with
    | [] => Returned (t, s)
    | nodeId :: stack' =>
      if nodeId =? cb2_nullNode then Query_loop fuel' callback t box stack' s
      else
        match node_at t nodeId with
        | None => OutOfBounds
        | Some node =>
          if cb2TestOverlap (aabb node) box then
            if IsLeaf node then
              let r := callback s nodeId in
              if fst r then Query_loop fuel' callback t box stack' (snd r)
              else Returned (t, snd r)
            else
              Query_loop fuel' callback t box
                (child2 node :: child1 node :: stack') s
          else Query_loop fuel' callback t box stack' s
        end
    end
  end.

Definition Query {S : Type} (fuel : nat) (callback : QueryVisitor S)
    (t : cb2DynamicTree) (box : cb2AABB) (s : S)
    : outcome (cb2DynamicTree * S) :=
  Query_loop fuel callback t box [m_root t] s.

(** ** RayCast *)

Record cb2RayCastInput : Type := mkRayCastInput {
  p1 : Vec2;
  p2 : Vec2;
  maxFraction : Q
}.

(** The visitor of [RayCast]: [RayCastCallback(subInput, nodeId)]. *)
Definition RayCastVisitor (S : Type) : Type :=
  S -> cb2RayCastInput -> Z -> Q * S.

(** [t = p1 + maxFraction * (p2 - p1)], as the machine computes it. *)
Definition segment_end (ar : FloatArith) (a b : Vec2) (f : Q) : Vec2 :=
  fvadd ar a (fvscale ar f (fvsub ar b a)).

(** The block that builds [segmentAABB]: the box of [a] and the computed
    end point. *)
Definition segment_box (ar : FloatArith) (a b : Vec2) (f : Q) : cb2AABB :=
  let t := segment_end ar a b f in
  mkAABB (cb2Min a t) (cb2Max a t).

(** [cb2Abs(cb2Dot(v, p1 - c)) - cb2Dot(abs_v, h)] for the box of a node. *)
Definition separation (ar : FloatArith) (v abs_v a : Vec2) (box : cb2AABB)
    : Q :=
  let c := GetCenter ar box in
  let h := GetExtents ar box in
  fsub ar (cb2AbsF (cb2Dot ar v (fvsub ar a c))) (cb2Dot ar abs_v h).

(** The loop of [RayCast]; [fraction] and [segmentAABB] are the locals
    [maxFraction] and [segmentAABB] of the method. *)
Fixpoint RayCast_loop {S : Type} (ar : FloatArith) (fuel : nat)
    (callback : RayCastVisitor S) (t : cb2DynamicTree)
    (input : cb2RayCastInput) (v abs_v : Vec2)
    (stack : list Z) (fraction : Q) (segmentAABB : cb2AABB) (s : S)
    : outcome (cb2DynamicTree * S) :=
  match fuel with
  | O => OutOfFuel
  | Datatypes.S fuel' =>
    match stack with
    | [] => Returned (t, s)
    | nodeId :: stack' =>
      if nodeId =? cb2_nullNode then
        RayCast_loop ar fuel' callback t input v abs_v stack' fraction
          segmentAABB s
      else
        match node_at t nodeId with
        | None => OutOfBounds
        | Some node =>
          if negb (cb2TestOverlap (aabb node) segmentAABB) then
            RayCast_loop ar fuel' callback t input v abs_v stack' fraction
              segmentAABB s
          else if Qltb 0 (separation ar v abs_v (p1 input) (aabb node)) then
            RayCast_loop ar fuel' callback t input v abs_v stack' fraction
              segmentAABB s
          else if IsLeaf node then
            let subInput := mkRayCastInput (p1 input) (p2 input) fraction in
            let r := callback s subInput nodeId in
            let value := fst r in
            if Qeq_bool value 0 then Returned (t, snd r)
            else if Qltb 0 value then
              RayCast_loop ar fuel' callback t input v abs_v stack' value
                (segment_box ar (p1 input) (p2 input) value) (snd r)
            else
              RayCast_loop ar fuel' callback t input v abs_v stack' fraction
                segmentAABB (snd r)
          else
            RayCast_loop ar fuel' callback t input v abs_v
              (child2 node :: child1 node :: stack') fraction segmentAABB s
        end
    end
  end.

(** [normalize] stands for [ci::Vec2f::normalize] of the Cinder library,
    which is outside the repository.  The assertion only compares with
    zero; it is taken on the exact difference (underflow of the squared
    length is outside the model). *)
Definition RayCast {S : Type} (ar : FloatArith) (normalize : Vec2 -> Vec2)
    (fuel : nat)
    (callback : RayCastVisitor S) (t : cb2DynamicTree)
    (input : cb2RayCastInput) (s : S) : outcome (cb2DynamicTree * S) :=
  let r := vsub (p2 input) (p1 input) in
  if Qltb 0 (lengthSquared r) then
    let r := normalize r in
    let v := cb2Cross 1 r in
    let abs_v := cb2Abs v in
    RayCast_loop ar fuel callback t input v abs_v [m_root t]
      (maxFraction input)
      (segment_box ar (p1 input) (p2 input) (maxFraction input)) s
  else AssertFailed.

(** The axis [v] of a call of [RayCast]: perpendicular to the normalized
    direction of the segment. *)
Definition ray_axis (normalize : Vec2 -> Vec2) (input : cb2RayCastInput)
    : Vec2 :=
  cb2Cross 1 (normalize (vsub (p2 input) (p1 input))).

(** ** Visitors that record their invocations *)

(** One invocation of [QueryCallback]: the node index passed and the value
    returned. *)
Definition QueryCall : Type := (Z * bool)%type.

Definition logQuery {S : Type} (callback : QueryVisitor S)
    : QueryVisitor (S * list QueryCall) :=
  fun sl nodeId =>
    let r := callback (fst sl) nodeId in
    (fst r, (snd r, snd sl ++ [(nodeId, fst r)])).

(** One invocation of [RayCastCallback]: the sub-input and node index
    passed and the value returned. *)
Record RayCall : Type := mkRayCall {
  rc_input : cb2RayCastInput;
  rc_node : Z;
  rc_value : Q
}.

Definition logRay {S : Type} (callback : RayCastVisitor S)
    : RayCastVisitor (S * list RayCall) :=
  fun sl subInput nodeId =>
    let r := callback (fst sl) subInput nodeId in
    (fst r, (snd r, snd sl ++ [mkRayCall subInput nodeId (fst r)])).

(** The outcome of a recorded run without its record. *)
Definition forget_log {T S L : Type} (o : outcome (T * (S * L)))
    : outcome (T * S) :=
  match o with
  | Returned (t, (s, _)) => Returned (t, s)
  | AssertFailed => AssertFailed
  | OutOfBounds => OutOfBounds
  | OutOfFuel => OutOfFuel
  end.

(** ** Shape of the tree *)

(** [encloses t n c]: the child index [c] of node [n] is null, or the box
    of [n] contains the box of node [c]. *)
Definition encloses (t : cb2DynamicTree) (n : cb2TreeNode) (c : Z) : Prop :=
  c = cb2_nullNode \/
  exists cn, node_at t c = Some cn /\ Contains (aabb n) (aabb cn) = true.

(** [fitted t i]: below index [i] the pool holds a finite tree, and the box
    of every internal node of it contains the boxes of both children. *)
Inductive fitted (t : cb2DynamicTree) : Z -> Prop :=
| fitted_null : fitted t cb2_nullNode
| fitted_leaf i n :
    i <> cb2_nullNode -> node_at t i = Some n -> IsLeaf n = true ->
    fitted t i
| fitted_node i n :
    i <> cb2_nullNode -> node_at t i = Some n -> IsLeaf n = false ->
    encloses t n (child1 n) -> encloses t n (child2 n) ->
    fitted t (child1 n) -> fitted t (child2 n) ->
    fitted t i.

(** The same as a check that runs, to depth [d]. *)
Definition encloses_b (t : cb2DynamicTree) (n : cb2TreeNode) (c : Z) : bool :=
  (c =? cb2_nullNode) ||
  match node_at t c with
  | Some cn => Contains (aabb n) (aabb cn)
  | None => false
  end.

Fixpoint fitted_b (d : nat) (t : cb2DynamicTree) (i : Z) : bool :=
  match d with
  | O => i =? cb2_nullNode
  | Datatypes.S d' =>
    (i =? cb2_nullNode) ||
    match node_at t i with
    | None => false
    | Some n =>
      IsLeaf n ||
      (encloses_b t n (child1 n) && encloses_b t n (child2 n) &&
       fitted_b d' t (child1 n) && fitted_b d' t (child2 n))
    end
  end.

(** [leaf_under t i x]: [x] is a leaf of the tree below index [i]. *)
Inductive leaf_under (t : cb2DynamicTree) : Z -> Z -> Prop :=
| leaf_here i n :
    i <> cb2_nullNode -> node_at t i = Some n -> IsLeaf n = true ->
    leaf_under t i i
| leaf_child1 i n x :
    i <> cb2_nullNode -> node_at t i = Some n -> IsLeaf n = false ->
    leaf_under t (child1 n) x -> leaf_under t i x
| leaf_child2 i n x :
    i <> cb2_nullNode -> node_at t i = Some n -> IsLeaf n = false ->
    leaf_under t (child2 n) x -> leaf_under t i x.

(** The live leaves are the leaves below the root. *)
Definition live_leaf (t : cb2DynamicTree) (x : Z) : Prop :=
  leaf_under t (m_root t) x.

(** The stored box of node [x] overlaps [box]. *)
Definition overlaps (t : cb2DynamicTree) (x : Z) (box : cb2AABB) : Prop :=
  exists n, node_at t x = Some n /\ cb2TestOverlap (aabb n) box = true.

(** A node is free when its height is -1. *)
Definition is_free (n : cb2TreeNode) : bool := height n =? -1.

(** ** Geometry of a ray against a box *)

Definition in_box (b : cb2AABB) (p : Vec2) : Prop :=
  (vx (lowerBound b) <= vx p /\ vx p <= vx (upperBound b) /\
   vy (lowerBound b) <= vy p /\ vy p <= vy (upperBound b))%Q.

(** The point of the ray of [input] at parametric fraction [f]. *)
Definition ray_point (input : cb2RayCastInput) (f : Q) : Vec2 :=
  vadd (p1 input) (vscale f (vsub (p2 input) (p1 input))).

(** The ray meets the box at fraction [f]. *)
Definition hits_at (input : cb2RayCastInput) (b : cb2AABB) (f : Q) : Prop :=
  (0 <= f)%Q /\ in_box b (ray_point input f).

(** The nearest point of the box along the ray lies beyond fraction [f]:
    the ray meets the box, and only at fractions greater than [f]. *)
Definition beyond (input : cb2RayCastInput) (b : cb2AABB) (f : Q) : Prop :=
  (exists f0, hits_at input b f0) /\
  (forall f0, hits_at input b f0 -> (f < f0)%Q).

(** The end point that [ar] computes for fraction [f] is the point of the
    ray at [f]: the computation rounded nothing away. *)
Definition end_exact (ar : FloatArith) (input : cb2RayCastInput) (f : Q)
    : Prop :=
  (vx (segment_end ar (p1 input) (p2 input) f) == vx (ray_point input f) /\
   vy (segment_end ar (p1 input) (p2 input) f) == vy (ray_point input f))%Q.

(** The update of the max fraction by a returned value. *)
Definition clip (f value : Q) : Q := if Qltb 0 value then value else f.

(** The max fraction in force after the callbacks of [calls], starting from
    [f]: the most recent positive value returned, or [f]. *)
Definition clipped_fraction (f : Q) (calls : list RayCall) : Q :=
  fold_left (fun m c => clip m (rc_value c)) calls f.

(** ** The contact-type registry *)

(** Modelled from the spec: the enumeration [cb2Shape::Type] of
    Collision/Shapes/cb2Shape.h, which is not among the sources; the
    registry is "keyed by a pair of shape-kind tags".  The four tags are the
    ones [InitializeRegisters] names. *)
Inductive ShapeType : Type := e_circle | e_edge | e_polygon | e_chain.

Definition ShapeType_eqb (a b : ShapeType) : bool :=
  match a, b with
  | e_circle, e_circle | e_edge, e_edge
  | e_polygon, e_polygon | e_chain, e_chain => true
  | _, _ => false
  end.

(** The contact classes, each standing for its [Create] and [Destroy]
    functions. *)
Inductive ContactClass : Type :=
| cb2CircleContact
| cb2PolygonAndCircleContact
| cb2PolygonContact
| cb2EdgeAndCircleContact
| cb2EdgeAndPolygonContact
| cb2ChainAndCircleContact
| cb2ChainAndPolygonContact.

(** A null function pointer is [None]. *)
Record cb2ContactRegister : Type := mkRegister {
  createFcn : option ContactClass;
  destroyFcn : option ContactClass;
  primary : bool
}.

Definition Registers : Type := ShapeType -> ShapeType -> cb2ContactRegister.

(** The statics of [cb2Contact]. *)
Record ContactStatics : Type := mkStatics {
  s_registers : Registers;
  s_initialized : bool
}.

(** Static storage starts zeroed. *)
Definition zero_registers : Registers := fun _ _ => mkRegister None None false.
Definition initial_statics : ContactStatics := mkStatics zero_registers false.

Definition set_register (regs : Registers) (type1 type2 : ShapeType)
    (r : cb2ContactRegister) : Registers :=
  fun a b =>
    if ShapeType_eqb a type1 && ShapeType_eqb b type2 then r else regs a b.

Definition AddType (createF destroyF : ContactClass)
    (type1 type2 : ShapeType) (regs : Registers) : Registers :=
  let regs1 :=
    set_register regs type1 type2 (mkRegister (Some createF) (Some destroyF) true) in
  if negb (ShapeType_eqb type1 type2) then
    set_register regs1 type2 type1
      (mkRegister (Some createF) (Some destroyF) false)
  else regs1.

Definition InitializeRegisters (regs : Registers) : Registers :=
  let regs := AddType cb2CircleContact cb2CircleContact e_circle e_circle regs in
  let regs := AddType cb2PolygonAndCircleContact cb2PolygonAndCircleContact
                e_polygon e_circle regs in
  let regs := AddType cb2PolygonContact cb2PolygonContact
                e_polygon e_polygon regs in
  let regs := AddType cb2EdgeAndCircleContact cb2EdgeAndCircleContact
                e_edge e_circle regs in
  let regs := AddType cb2EdgeAndPolygonContact cb2EdgeAndPolygonContact
                e_edge e_polygon regs in
  let regs := AddType cb2ChainAndCircleContact cb2ChainAndCircleContact
                e_chain e_circle regs in
  AddType cb2ChainAndPolygonContact cb2ChainAndPolygonContact
    e_chain e_polygon regs.

(** A fixture: its identity (the pointer) and the type of its shape. *)
Record cb2Fixture : Type := mkFixture {
  fixture_id : Z;
  GetType : ShapeType
}.

(** A call of a creation function:
    [createFcn(fixtureA, indexA, fixtureB, indexB, allocator)]. *)
Record CreateCall : Type := mkCreateCall {
  cc_fcn : ContactClass;
  cc_fixtureA : cb2Fixture;
  cc_indexA : Z;
  cc_fixtureB : cb2Fixture;
  cc_indexB : Z;
  cc_allocator : Z
}.

(** [cb2Contact::Create]: the statics after the call, and the call of a
    creation function whose result is returned, or [None] for [NULL].  The
    two assertions on the range of the type tags hold for every value of
    [ShapeType]. *)
Definition Create (g : ContactStatics) (fixtureA : cb2Fixture) (indexA : Z)
    (fixtureB : cb2Fixture) (indexB : Z) (allocator : Z)
    : ContactStatics * option CreateCall :=
  let g :=
    if negb (s_initialized g)
    then mkStatics (InitializeRegisters (s_registers g)) true
    else g in
  let type1 := GetType fixtureA in
  let type2 := GetType fixtureB in
  match createFcn (s_registers g type1 type2) with
  | Some f =>
    if primary (s_registers g type1 type2) then
      (g, Some (mkCreateCall f fixtureA indexA fixtureB indexB allocator))
    else
      (g, Some (mkCreateCall f fixtureB indexB fixtureA indexA allocator))
  | None => (g, None)
  end.

(** The statics the program can be in: as loaded, or after calls of
    [Create]. *)
Inductive reachable : ContactStatics -> Prop :=
| reachable_initial : reachable initial_statics
| reachable_Create g fA iA fB iB al :
    reachable g -> reachable (fst (Create g fA iA fB iB al)).

(** The registry [InitializeRegisters] builds from the zeroed statics. *)
Definition standard_registers : Registers := InitializeRegisters zero_registers.

(** The pair of shape types has a creation function. *)
Definition registered (a b : ShapeType) : bool :=
  match createFcn (standard_registers a b) with
  | Some _ => true
  | None => false
  end.

(** ** Sample data *)

Definition box (x0 y0 x1 y1 : Q) : cb2AABB :=
  mkAABB (mkVec2 x0 y0) (mkVec2 x1 y1).

Definition leaf_node (b : cb2AABB) (data parent_ : Z) : cb2TreeNode :=
  mkNode b data parent_ cb2_nullNode cb2_nullNode 0.

(** Three leaves along the x axis: A (index 2), B (index 3), C (index 4).
    The root (index 0) has the internal node 1 and leaf A as children; node
    1 has C and B.  The traversals pop A, then node 1, then B, then C. *)
Definition sample_tree : cb2DynamicTree :=
  mkTree 0
    [ mkNode (box 0 (-1) 13 1) 0 cb2_nullNode 1 2 2;
      mkNode (box 2 (-1) 13 1) 0 0 4 3 1;
      leaf_node (box 0 (-1) 1 1) 100 0;
      leaf_node (box 2 (-1) 3 1) 101 1;
      leaf_node (box 12 (-1) 13 1) 102 1 ]
    5 5 cb2_nullNode 0 3.

(** A pool of two slots: slot 0 is the root leaf, slot 1 was freed
    (height -1, on the free list) and still holds the data of its last
    proxy. *)
Definition tree_with_free_slot : cb2DynamicTree :=
  mkTree 0
    [ leaf_node (box 0 0 1 1) 100 cb2_nullNode;
      mkNode (box 5 5 6 6) 7 cb2_nullNode cb2_nullNode cb2_nullNode (-1) ]
    1 2 1 0 2.

(** A tree of one leaf around the origin. *)
Definition single_leaf_tree : cb2DynamicTree :=
  mkTree 0 [ leaf_node (box (-1) (-1) 1 1) 100 cb2_nullNode ]
    1 1 cb2_nullNode 0 1.

(** The tree of a fresh pool: no root, one free slot. *)
Definition empty_tree : cb2DynamicTree :=
  mkTree cb2_nullNode
    [ mkNode (box 0 0 0 0) 0 cb2_nullNode 0 0 (-1) ]
    0 1 0 0 0.

(** The ray along the x axis from the origin to (16, 0). *)
Definition sample_ray : cb2RayCastInput :=
  mkRayCastInput (mkVec2 0 0) (mkVec2 16 0) 1.

(** The same ray with max fraction zero, and with a negative one. *)
Definition zero_fraction_ray : cb2RayCastInput :=
  mkRayCastInput (mkVec2 0 0) (mkVec2 16 0) 0.

Definition negative_fraction_ray : cb2RayCastInput :=
  mkRayCastInput (mkVec2 0 0) (mkVec2 16 0) (-1).

(** A ray of length zero. *)
Definition zero_length_ray : cb2RayCastInput :=
  mkRayCastInput (mkVec2 3 4) (mkVec2 3 4) 1.

(** [normalize] on the vectors that are parallel to an axis, where the
    length is rational; other vectors are left as they are. *)
Definition normalize_axis (a : Vec2) : Vec2 :=
  if Qeq_bool (vy a) 0 then mkVec2 (vx a / cb2AbsF (vx a)) 0
  else if Qeq_bool (vx a) 0 then mkVec2 0 (vy a / cb2AbsF (vy a))
  else a.

(** A query visitor that accepts every leaf. *)
Definition accept_all : QueryVisitor unit := fun s _ => (true, s).

(** A query visitor that stops at the first leaf. *)
Definition stop_at_first : QueryVisitor unit := fun s _ => (false, s).

(** A ray visitor that ignores every leaf. *)
Definition ignore_all : RayCastVisitor unit := fun s _ _ => (-1, s)%Q.

(** A ray visitor that clips the ray to one half at leaf A and widens it
    back to the whole ray at leaf B. *)
Definition clip_then_widen : RayCastVisitor unit :=
  fun s _ nodeId =>
    if nodeId =? 2 then (1 # 2, s)
    else if nodeId =? 3 then (1, s)%Q
    else (-1, s)%Q.

(** A ray visitor that clips the ray to one half at leaf A and ends the
    traversal at leaf B. *)
Definition clip_then_stop : RayCastVisitor unit :=
  fun s _ nodeId =>
    if nodeId =? 2 then (1 # 2, s)
    else if nodeId =? 3 then (0, s)%Q
    else (-1, s)%Q.

(** The ray along the x axis from the origin to (10, 0). *)
Definition decimal_ray : cb2RayCastInput :=
  mkRayCastInput (mkVec2 0 0) (mkVec2 10 0) 1.

(** The float nearest to 0.7, which is below 0.7. *)
Definition seven_tenths : Q := 11744051 # 16777216.

(** Two leaves along the x axis under one root: the near one (index 2, x
    from 0 to 1) is popped first, the far one (index 1, x from 7 to 8)
    second. *)
Definition near_far_tree : cb2DynamicTree :=
  mkTree 0
    [ mkNode (box 0 (-1) 8 1) 0 cb2_nullNode 1 2 1;
      leaf_node (box 7 (-1) 8 1) 101 0;
      leaf_node (box 0 (-1) 1 1) 100 0 ]
    3 3 cb2_nullNode 0 2.

(** A ray visitor that clips the ray to 0.7f at the near leaf. *)
Definition clip_to_seven_tenths : RayCastVisitor unit :=
  fun s _ nodeId =>
    if nodeId =? 2 then (seven_tenths, s) else (-1, s)%Q.

Definition circleA : cb2Fixture := mkFixture 1 e_circle.
Definition circleB : cb2Fixture := mkFixture 2 e_circle.
Definition polygonA : cb2Fixture := mkFixture 3 e_polygon.

(** ** Contract violations *)

(** A proxy id is invalid when it is outside the pool range or names a
    freed slot. *)
Definition invalid_proxy (t : cb2DynamicTree) (proxyId : Z) : Prop :=
  proxyId < 0 \/ m_nodeCapacity t <= proxyId \/
  exists n, node_at t proxyId = Some n /\ is_free n = true.

(** Equality of vectors as floats compare them. *)
Definition vec_eq (a b : Vec2) : Prop := (vx a == vx b /\ vy a == vy b)%Q.

(** A ray input is degenerate when its direction has length zero or its
    max fraction is not positive. *)
Definition degenerate (input : cb2RayCastInput) : Prop :=
  vec_eq (p1 input) (p2 input) \/ (maxFraction input <= 0)%Q.

(** ** What a record of invocations must look like *)

(** Index [i] holds a leaf. *)
Definition is_leaf_index (t : cb2DynamicTree) (i : Z) : Prop :=
  exists n, node_at t i = Some n /\ IsLeaf n = true.

(** An invocation of [QueryCallback] that returned false is the last. *)
Fixpoint stops_at_false (calls : list QueryCall) : Prop :=
  match calls with
  | [] => True
  | c :: rest => (snd c = false -> rest = []) /\ stops_at_false rest
  end.

(** The node of an invocation of [RayCastCallback] made while the max
    fraction is [f]: a leaf that passed both pruning tests. *)
Definition survives (ar : FloatArith) (t : cb2DynamicTree)
    (input : cb2RayCastInput) (v abs_v : Vec2) (f : Q) (i : Z) : Prop :=
  exists n,
    node_at t i = Some n /\ IsLeaf n = true /\
    cb2TestOverlap (aabb n) (segment_box ar (p1 input) (p2 input) f) = true /\
    Qltb 0 (separation ar v abs_v (p1 input) (aabb n)) = false.

(** The invocations of [RayCastCallback] of a traversal that starts with
    max fraction [f]. *)
Fixpoint ray_calls_ok (ar : FloatArith) (t : cb2DynamicTree)
    (input : cb2RayCastInput) (v abs_v : Vec2) (f : Q)
    (calls : list RayCall) : Prop :=
  match calls with
  | [] => True
  | c :: rest =>
    rc_input c = mkRayCastInput (p1 input) (p2 input) f /\
    survives ar t input v abs_v f (rc_node c) /\
    ((rc_value c == 0)%Q -> rest = []) /\
    ray_calls_ok ar t input v abs_v (clip f (rc_value c)) rest
  end.

(** ** The recursive view of the traversals *)

(** The leaves below index [i], in the order a depth-first walk that takes
    [child2] before [child1] meets them; [None] when the pool does not hold
    a finite tree of depth at most [d] below [i]. *)
Fixpoint leaves (d : nat) (t : cb2DynamicTree) (i : Z) : option (list Z) :=
  if i =? cb2_nullNode then Some []
  else
    match d with
    | O => None
    | Datatypes.S d' =>
      match node_at t i with
      | None => None
      | Some n =>
        if IsLeaf n then Some [i]
        else
          match leaves d' t (child2 n), leaves d' t (child1 n) with
          | Some l2, Some l1 => Some (l2 ++ l1)
          | _, _ => None
          end
      end
    end.

(** The same walk, pruned at every node whose box does not overlap [box]:
    what a recursive [Query] would report.  Nothing is asked of the pool
    below a pruned node. *)
Fixpoint Query_rec (d : nat) (t : cb2DynamicTree) (box : cb2AABB) (i : Z)
    : option (list Z) :=
  if i =? cb2_nullNode then Some []
  else
    match d with
    | O => None
    | Datatypes.S d' =>
      match node_at t i with
      | None => None
      | Some n =>
        if cb2TestOverlap (aabb n) box then
          if IsLeaf n then Some [i]
          else
            match Query_rec d' t box (child2 n), Query_rec d' t box (child1 n) with
            | Some l2, Some l1 => Some (l2 ++ l1)
            | _, _ => None
            end
        else Some []
      end
    end.

(** The stored box of node [x] overlaps [box], as a test. *)
Definition overlaps_b (t : cb2DynamicTree) (box : cb2AABB) (x : Z) : bool :=
  match node_at t x with
  | Some n => cb2TestOverlap (aabb n) box
  | None => false
  end.

(** [subseq l1 l2]: [l1] is [l2] with some elements left out. *)
Inductive subseq {A : Type} : list A -> list A -> Prop :=
| subseq_nil : subseq [] []
| subseq_skip x l1 l2 : subseq l1 l2 -> subseq l1 (x :: l2)
| subseq_take x l1 l2 : subseq l1 l2 -> subseq (x :: l1) (x :: l2).

(** ** Contacts: construction, update and destruction *)

(** What cb2Contact.cpp takes from headers that are not among the sources,
    as parameters: the two flag constants of cb2Contact.h that it names,
    the accessors of cb2Fixture, and the two mixing functions. *)
Record ContactEnv : Type := mkContactEnv {
  e_touchingFlag : Z;
  e_enabledFlag : Z;
  IsSensor : cb2Fixture -> bool;
  GetBody : cb2Fixture -> Z;
  fixture_friction : cb2Fixture -> Q;
  fixture_restitution : cb2Fixture -> Q;
  cb2MixFriction : Q -> Q -> Q;
  cb2MixRestitution : Q -> Q -> Q
}.

(** A manifold point and a manifold, with the fields cb2Contact.cpp reads
    and writes; [points] is the array, [pointCount] the number of its
    entries in use. *)
Record cb2ManifoldPoint : Type := mkManifoldPoint {
  mp_localPoint : Vec2;
  normalImpulse : Q;
  tangentImpulse : Q;
  id_key : Z
}.

Record cb2Manifold : Type := mkManifold {
  points : list cb2ManifoldPoint;
  pointCount : Z
}.

(** A contact edge; a null pointer is [None]. *)
Record cb2ContactEdge : Type := mkContactEdge {
  edge_contact : option Z;
  edge_prev : option Z;
  edge_next : option Z;
  edge_other : option Z
}.

Record cb2Contact : Type := mkContact {
  m_flags : Z;
  m_fixtureA : cb2Fixture;
  m_fixtureB : cb2Fixture;
  m_indexA : Z;
  m_indexB : Z;
  m_manifold : cb2Manifold;
  m_prev : option Z;
  m_next : option Z;
  m_nodeA : cb2ContactEdge;
  m_nodeB : cb2ContactEdge;
  m_toiCount : Z;
  m_friction : Q;
  m_restitution : Q;
  m_tangentSpeed : Q
}.

(** The constructor.  It sets [m_manifold.pointCount] only: the points are
    what the memory held, [uninit]. *)
Definition cb2Contact_new (env : ContactEnv) (fA : cb2Fixture) (indexA : Z)
    (fB : cb2Fixture) (indexB : Z) (uninit : cb2Manifold) : cb2Contact :=
  mkContact (e_enabledFlag env) fA fB indexA indexB
    (mkManifold (points uninit) 0)
    None None
    (mkContactEdge None None None None)
    (mkContactEdge None None None None)
    0
    (cb2MixFriction env (fixture_friction env fA) (fixture_friction env fB))
    (cb2MixRestitution env (fixture_restitution env fA)
       (fixture_restitution env fB))
    0.

(** [(m_flags & e_touchingFlag) == e_touchingFlag], and the same for the
    enabled flag. *)
Definition touching_flag_set (env : ContactEnv) (c : cb2Contact) : bool :=
  Z.land (m_flags c) (e_touchingFlag env) =? e_touchingFlag env.

Definition enabled_flag_set (env : ContactEnv) (c : cb2Contact) : bool :=
  Z.land (m_flags c) (e_enabledFlag env) =? e_enabledFlag env.

(** The calls [Update] and [Destroy] make on other objects:
    [SetAwake(true)] on a body, the listener's callbacks, and the destroy
    function of a contact class. *)
Inductive ContactEvent : Type :=
| EvSetAwake (body : Z)
| EvBeginContact
| EvEndContact
| EvPreSolve (oldManifold : cb2Manifold)
| EvDestroyFcn (f : ContactClass) (allocator : Z).

Definition zero_impulses (mp : cb2ManifoldPoint) : cb2ManifoldPoint :=
  mkManifoldPoint (mp_localPoint mp) 0 0 (id_key mp).

Definition copy_impulses (mp1 mp2 : cb2ManifoldPoint) : cb2ManifoldPoint :=
  mkManifoldPoint (mp_localPoint mp2) (normalImpulse mp1)
    (tangentImpulse mp1) (id_key mp2).

Fixpoint set_nth {A : Type} (i : nat) (a : A) (l : list A) : list A :=
  match l, i with
  | [], _ => []
  | _ :: l', O => a :: l'
  | x :: l', Datatypes.S i' => x :: set_nth i' a l'
  end.

(** The inner loop of [Update]: [count] turns are left and [j] is the loop
    variable. *)
Fixpoint match_old (count j : nat) (old : cb2Manifold)
    (mp2 : cb2ManifoldPoint) : outcome cb2ManifoldPoint :=
  match count with
  | O => Returned mp2
  | Datatypes.S count' =>
    match nth_error (points old) j with
    | None => OutOfBounds
    | Some mp1 =>
      if id_key mp1 =? id_key mp2 then Returned (copy_impulses mp1 mp2)
      else match_old count' (Datatypes.S j) old mp2
    end
  end.

(** The outer loop of [Update]. *)
Fixpoint warm_start (count i : nat) (old m : cb2Manifold)
    : outcome cb2Manifold :=
  match count with
  | O => Returned m
  | Datatypes.S count' =>
    match nth_error (points m) i with
    | None => OutOfBounds
    | Some mp2 =>
      match match_old (Z.to_nat (pointCount old)) 0 old (zero_impulses mp2) with
      | Returned mp2' =>
        warm_start count' (Datatypes.S i) old
          (mkManifold (set_nth i mp2' (points m)) (pointCount m))
      | AssertFailed => AssertFailed
      | OutOfBounds => OutOfBounds
      | OutOfFuel => OutOfFuel
      end
    end
  end.

Definition with_flags_manifold (c : cb2Contact) (flags : Z)
    (m : cb2Manifold) : cb2Contact :=
  mkContact flags (m_fixtureA c) (m_fixtureB c) (m_indexA c) (m_indexB c) m
    (m_prev c) (m_next c) (m_nodeA c) (m_nodeB c) (m_toiCount c)
    (m_friction c) (m_restitution c) (m_tangentSpeed c).

(** The tail of [Update], from the setting of the touching flag on. *)
Definition Update_finish (env : ContactEnv) (listener : bool)
    (c : cb2Contact) (oldManifold : cb2Manifold) (flags : Z)
    (wasTouching sensor touching : bool) (m : cb2Manifold)
    (events : list ContactEvent) : cb2Contact * list ContactEvent :=
  let flags :=
    if touching then Z.lor flags (e_touchingFlag env)
    else Z.land flags (Z.lnot (e_touchingFlag env)) in
  (with_flags_manifold c flags m,
   events
   ++ (if negb wasTouching && touching && listener
       then [EvBeginContact] else [])
   ++ (if wasTouching && negb touching && listener
       then [EvEndContact] else [])
   ++ (if negb sensor && touching && listener
       then [EvPreSolve oldManifold] else [])).

(** [cb2Contact::Update].  [touchingShapes] is what the shape overlap test
    of the sensor branch returns, [Evaluate] is the virtual [Evaluate] with
    the two transforms, as a function of the manifold it is handed, and
    [listener] tells whether the listener pointer is not null.  The result
    is the contact as [Update] itself leaves it and the calls it made, in
    order; the listener is called after the last write of [Update], and
    what a listener does with the contact is not part of [Update]. *)
Definition Update (env : ContactEnv) (touchingShapes : bool)
    (Evaluate : cb2Manifold -> cb2Manifold) (listener : bool)
    (c : cb2Contact) : outcome (cb2Contact * list ContactEvent) :=
  let oldManifold := m_manifold c in
  let flags := Z.lor (m_flags c) (e_enabledFlag env) in
  let wasTouching :=
    Z.land flags (e_touchingFlag env) =? e_touchingFlag env in
  let sensorA := IsSensor env (m_fixtureA c) in
  let sensorB := IsSensor env (m_fixtureB c) in
  let sensor := sensorA || sensorB in
  let bodyA := GetBody env (m_fixtureA c) in
  let bodyB := GetBody env (m_fixtureB c) in
  if sensor then
    Returned
      (Update_finish env listener c oldManifold flags wasTouching sensor
         touchingShapes (mkManifold (points (m_manifold c)) 0) [])
  else
    let m := Evaluate (m_manifold c) in
    let touching := 0 <? pointCount m in
    match warm_start (Z.to_nat (pointCount m)) 0 oldManifold m with
    | Returned m' =>
      Returned
        (Update_finish env listener c oldManifold flags wasTouching sensor
           touching m'
           (if negb (Bool.eqb touching wasTouching)
            then [EvSetAwake bodyA; EvSetAwake bodyB] else []))
    | AssertFailed => AssertFailed
    | OutOfBounds => OutOfBounds
    | OutOfFuel => OutOfFuel
    end.

(** A run of calls of [Update] on one contact, nothing else writing the
    contact in between. *)
Record UpdateCall : Type := mkUpdateCall {
  uc_touchingShapes : bool;
  uc_Evaluate : cb2Manifold -> cb2Manifold;
  uc_listener : bool
}.

Fixpoint Updates (env : ContactEnv) (calls : list UpdateCall)
    (c : cb2Contact) : outcome (cb2Contact * list ContactEvent) :=
  match calls with
  | [] => Returned (c, [])
  | u :: rest =>
    match Update env (uc_touchingShapes u) (uc_Evaluate u) (uc_listener u) c with
    | Returned (c1, events1) =>
      match Updates env rest c1 with
      | Returned (c2, events2) => Returned (c2, events1 ++ events2)
      | AssertFailed => AssertFailed
      | OutOfBounds => OutOfBounds
      | OutOfFuel => OutOfFuel
      end
    | AssertFailed => AssertFailed
    | OutOfBounds => OutOfBounds
    | OutOfFuel => OutOfFuel
    end
  end.

(** What a listener that starts from [touching] knows after [events]:
    [BeginContact] may only come when not touching and [EndContact] only
    when touching; [None] when that is broken. *)
Fixpoint track_touching (touching : bool) (events : list ContactEvent)
    : option bool :=
  match events with
  | [] => Some touching
  | EvBeginContact :: rest =>
    if touching then None else track_touching true rest
  | EvEndContact :: rest =>
    if touching then track_touching false rest else None
  | _ :: rest => track_touching touching rest
  end.

(** The two flag constants are usable: the touching flag is not zero and
    shares no bit with the enabled flag. *)
Definition flags_ok (env : ContactEnv) : Prop :=
  e_touchingFlag env <> 0 /\
  Z.land (e_enabledFlag env) (e_touchingFlag env) = 0.

(** The first entry in use of [old] whose id key is [key]. *)
Definition old_point (old : cb2Manifold) (key : Z) : option cb2ManifoldPoint :=
  find (fun mp1 => id_key mp1 =? key)
    (firstn (Z.to_nat (pointCount old)) (points old)).

(** The point [Update] leaves for the point [mp2] that [Evaluate] made. *)
Definition warm_started (old : cb2Manifold) (mp2 : cb2ManifoldPoint)
    : cb2ManifoldPoint :=
  match old_point old (id_key mp2) with
  | Some mp1 => copy_impulses mp1 mp2
  | None => zero_impulses mp2
  end.

(** [pointCount] entries of the array are there. *)
Definition manifold_in_bounds (m : cb2Manifold) : Prop :=
  pointCount m <= Z.of_nat (length (points m)).

(** The outcome of [Destroy]: the calls it made; a failed assertion; or a
    call through a null destroy function, after the calls listed. *)
Inductive DestroyOutcome : Type :=
| Destroyed (events : list ContactEvent)
| DestroyAssertFailed
| DestroyNullCall (events : list ContactEvent).

(** [cb2Contact::Destroy].  The two assertions on the type tags hold for
    every value of [ShapeType]. *)
Definition Destroy (env : ContactEnv) (g : ContactStatics)
    (contact : cb2Contact) (allocator : Z) : DestroyOutcome :=
  if s_initialized g then
    let fixtureA := m_fixtureA contact in
    let fixtureB := m_fixtureB contact in
    let events :=
      if (0 <? pointCount (m_manifold contact))
         && negb (IsSensor env fixtureA) && negb (IsSensor env fixtureB)
      then [EvSetAwake (GetBody env fixtureA); EvSetAwake (GetBody env fixtureB)]
      else [] in
    let typeA := GetType fixtureA in
    let typeB := GetType fixtureB in
    match destroyFcn (s_registers g typeA typeB) with
    | Some f => Destroyed (events ++ [EvDestroyFcn f allocator])
    | None => DestroyNullCall events
    end
  else DestroyAssertFailed.

(** The registries that calls of [AddType] build from the zeroed one. *)
Inductive built : Registers -> Prop :=
| built_zero : built zero_registers
| built_AddType createF destroyF type1 type2 regs :
    built regs -> built (AddType createF destroyF type1 type2 regs).

(** The registry is mirrored: both orders of a pair hold the same
    functions, together or not at all; of two different types exactly one
    order is primary, and a registered pair of equal types is primary. *)
Definition mirrored (regs : Registers) : Prop :=
  forall a b,
    createFcn (regs a b) = createFcn (regs b a) /\
    destroyFcn (regs a b) = destroyFcn (regs b a) /\
    (createFcn (regs a b) = None <-> destroyFcn (regs a b) = None) /\
    (createFcn (regs a b) <> None ->
     primary (regs a b) = if ShapeType_eqb a b then true
                          else negb (primary (regs b a))).

(** Sample data for contacts: flags 2 and 4, fixture 2 a sensor, each
    fixture on the body of its number. *)
Definition sample_env : ContactEnv :=
  mkContactEnv 2 4 (fun f => fixture_id f =? 2) fixture_id
    (fun _ => 1 # 2) (fun _ => 0%Q) Qmult cb2MaxF.

Definition sample_point (key : Z) (normal tangent : Q) : cb2ManifoldPoint :=
  mkManifoldPoint (mkVec2 0 0) normal tangent key.

(** A contact of a polygon and a circle that is touching, with two
    points. *)
Definition touching_contact : cb2Contact :=
  mkContact 6 polygonA circleA 0 0
    (mkManifold [sample_point 10 (1 # 2) (1 # 4); sample_point 11 3 5] 2)
    None None (mkContactEdge None None None None)
    (mkContactEdge None None None None) 0 (1 # 4) 0%Q 0%Q.

(** An [Evaluate] that finds the points with keys 11 and 12. *)
Definition evaluate_two (m : cb2Manifold) : cb2Manifold :=
  mkManifold [sample_point 11 9 9; sample_point 12 9 9] 2.

(** An [Evaluate] that finds no point. *)
Definition evaluate_none (m : cb2Manifold) : cb2Manifold :=
  mkManifold (points m) 0.

(** ** Parent links *)

(** Node [c] exists and its [parent] field is [i]. *)
Definition child_has_parent (t : cb2DynamicTree) (i c : Z) : bool :=
  match node_at t c with
  | Some cn => parent cn =? i
  | None => false
  end.

(** An internal node has two different children, each naming it as
    parent. *)
Definition links_ok (t : cb2DynamicTree) (i : Z) (n : cb2TreeNode) : bool :=
  child_has_parent t i (child1 n) && child_has_parent t i (child2 n) &&
  negb (child1 n =? child2 n).

(** [links_ok] at every internal node met by the walk below [i], to depth
    [d]. *)
Fixpoint parents_ok (d : nat) (t : cb2DynamicTree) (i : Z) : bool :=
  match d with
  | O => true
  | Datatypes.S d' =>
    if i =? cb2_nullNode then true
    else
      match node_at t i with
      | None => true
      | Some n =>
        IsLeaf n ||
        (links_ok t i n && parents_ok d' t (child1 n) && parents_ok d' t (child2 n))
      end
  end.

(** [node_under t c y]: node [y] is [c] or lies below it. *)
Inductive node_under (t : cb2DynamicTree) : Z -> Z -> Prop :=
| under_here c n :
    c <> cb2_nullNode -> node_at t c = Some n -> node_under t c c
| under_child1 c n y :
    c <> cb2_nullNode -> node_at t c = Some n -> IsLeaf n = false ->
    node_under t (child1 n) y -> node_under t c y
| under_child2 c n y :
    c <> cb2_nullNode -> node_at t c = Some n -> IsLeaf n = false ->
    node_under t (child2 n) y -> node_under t c y.

(** [links_ok] at every internal node below [c]. *)
Definition linked (t : cb2DynamicTree) (c : Z) : Prop :=
  forall j n,
    node_under t c j -> node_at t j = Some n -> IsLeaf n = false ->
    links_ok t j n = true.

(** The [parent] field of node [y], and the ancestor [k] links up. *)
Definition parent_of (t : cb2DynamicTree) (y : Z) : Z :=
  match node_at t y with
  | Some n => parent n
  | None => cb2_nullNode
  end.

Fixpoint up (t : cb2DynamicTree) (k : nat) (y : Z) : Z :=
  match k with
  | O => y
  | Datatypes.S k' => parent_of t (up t k' y)
  end.

(** ** What the traversals read *)

(** The fields of a node the traversals read. *)
Definition node_view (n : cb2TreeNode) : cb2AABB * Z * Z :=
  (aabb n, child1 n, child2 n).

(** Two trees with the same root and, slot by slot, the same boxes and
    child indices; user data, parent/next, heights, free list and counters
    may differ. *)
Definition same_shape (t1 t2 : cb2DynamicTree) : Prop :=
  m_root t1 = m_root t2 /\
  forall i, option_map node_view (node_at t1 i)
            = option_map node_view (node_at t2 i).

(** The outcome of a traversal for the visitor alone. *)
Definition visitor_outcome {T S : Type} (o : outcome (T * S)) : outcome S :=
  match o with
  | Returned (_, s) => Returned s
  | AssertFailed => AssertFailed
  | OutOfBounds => OutOfBounds
  | OutOfFuel => OutOfFuel
  end.

(** The sample tree with other user data, parent fields, heights, free
    list and counters. *)
Definition sample_tree_scrambled : cb2DynamicTree :=
  mkTree 0
    [ mkNode (box 0 (-1) 13 1) 9 7 1 2 0;
      mkNode (box 2 (-1) 13 1) 9 7 4 3 5;
      mkNode (box 0 (-1) 1 1) 9 7 cb2_nullNode cb2_nullNode (-1);
      mkNode (box 2 (-1) 3 1) 9 7 cb2_nullNode cb2_nullNode (-1);
      mkNode (box 12 (-1) 13 1) 9 7 cb2_nullNode cb2_nullNode (-1) ]
    0 9 3 1 0.

(** * Theorems *)

(** ** Scalars *)

Lemma Qltb_true (a b : Q) : Qltb a b = true <-> (a < b)%Q.
Proof.
  unfold Qltb. rewrite negb_true_iff.
  destruct (Qle_bool b a) eqn:E.
  - apply Qle_bool_iff in E. split; [discriminate | intros H; lra].
  - split; [intros _ | reflexivity].
    apply Qnot_le_lt. intros H. apply Qle_bool_iff in H. congruence.
Qed.

Lemma Qltb_false (a b : Q) : Qltb a b = false <-> (b <= a)%Q.
Proof.
  unfold Qltb. rewrite negb_false_iff. apply Qle_bool_iff.
Qed.

(** ** GetUserData and GetFatAABB *)

Lemma range_check_fails (t : cb2DynamicTree) (i : Z) :
  i < 0 \/ m_nodeCapacity t <= i ->
  (0 <=? i) && (i <? m_nodeCapacity t) = false.
Proof.
  intros [H | H]; apply andb_false_iff; [left | right].
  - apply Z.leb_gt; exact H.
  - apply Z.ltb_ge; exact H.
Qed.

Lemma range_check_passes (t : cb2DynamicTree) (i : Z) :
  0 <= i < m_nodeCapacity t ->
  (0 <=? i) && (i <? m_nodeCapacity t) = true.
Proof.
  intros [H1 H2]. apply andb_true_iff. split.
  - apply Z.leb_le; exact H1.
  - apply Z.ltb_lt; exact H2.
Qed.

(** C5, as stated, fails: slot 1 of [tree_with_free_slot] is a freed slot
    (height -1), hence an invalid proxy id, and both accessors return what
    the slot holds instead of failing. *)
Lemma freed_slot_is_read :
  invalid_proxy tree_with_free_slot 1 /\
  GetUserData tree_with_free_slot 1 = Returned 7 /\
  GetFatAABB tree_with_free_slot 1 = Returned (box 5 5 6 6).
Proof.
  split; [| split; reflexivity].
  right; right. eexists. split; reflexivity.
Qed.

(** C5, amended: [GetUserData] and [GetFatAABB] fail their assertion for
    every proxy id outside the pool range [0, capacity); for an id inside
    the range they return what the slot holds, with no check that the slot
    is live. *)
Theorem accessors_check_range_only (t : cb2DynamicTree) (proxyId : Z) :
  (proxyId < 0 \/ m_nodeCapacity t <= proxyId ->
   GetUserData t proxyId = AssertFailed /\
   GetFatAABB t proxyId = AssertFailed) /\
  (forall n, 0 <= proxyId < m_nodeCapacity t ->
   node_at t proxyId = Some n ->
   GetUserData t proxyId = Returned (userData n) /\
   GetFatAABB t proxyId = Returned (aabb n)).
Proof.
  split.
  - intros H. unfold GetUserData, GetFatAABB.
    rewrite (range_check_fails t proxyId H). split; reflexivity.
  - intros n H Hn. unfold GetUserData, GetFatAABB.
    rewrite (range_check_passes t proxyId H), Hn. split; reflexivity.
Qed.

Lemma accessors_check_range_only_witness :
  (GetUserData tree_with_free_slot 2 = AssertFailed /\
   GetFatAABB tree_with_free_slot 2 = AssertFailed) /\
  (GetUserData tree_with_free_slot 0 = Returned 100 /\
   GetFatAABB tree_with_free_slot 0 = Returned (box 0 0 1 1)).
Proof.
  split.
  - apply (proj1 (accessors_check_range_only tree_with_free_slot 2)).
    right. simpl. lia.
  - apply (proj2 (accessors_check_range_only tree_with_free_slot 0)
             (leaf_node (box 0 0 1 1) 100 cb2_nullNode)).
    + simpl. lia.
    + reflexivity.
Defined.

(** ** RayCast: the assertion on the ray *)

Lemma zero_direction_fails_assert (a b : Vec2) :
  vec_eq a b -> Qltb 0 (lengthSquared (vsub b a)) = false.
Proof.
  intros [Hx Hy]. apply Qltb_false. unfold lengthSquared, vsub; simpl.
  assert (Ex : (vx b - vx a == 0)%Q) by lra.
  assert (Ey : (vy b - vy a == 0)%Q) by lra.
  rewrite Ex, Ey. lra.
Qed.

(** C6, as stated, fails: a ray whose max fraction is zero or negative is a
    degenerate input, yet [RayCast] traverses the tree with it and invokes
    the callback on the leaf. *)
Lemma nonpositive_fraction_is_traversed :
  degenerate zero_fraction_ray /\
  RayCast float32 normalize_axis 2 (logRay ignore_all) single_leaf_tree
    zero_fraction_ray (tt, [])
  = Returned (single_leaf_tree, (tt, [mkRayCall zero_fraction_ray 0 (-1)])) /\
  degenerate negative_fraction_ray /\
  RayCast float32 normalize_axis 2 (logRay ignore_all) single_leaf_tree
    negative_fraction_ray (tt, [])
  = Returned (single_leaf_tree, (tt, [mkRayCall negative_fraction_ray 0 (-1)])).
Proof.
  repeat split; try reflexivity.
  - right. simpl. lra.
  - right. simpl. lra.
Qed.

(** C6, amended: [RayCast] fails its assertion, before any traversal work
    and so before any callback, on every ray whose direction has length
    zero ([p1] equal to [p2]); the max fraction is not checked. *)
Theorem RayCast_rejects_zero_direction {S : Type} (ar : FloatArith)
    (normalize : Vec2 -> Vec2)
    (fuel : nat) (callback : RayCastVisitor S) (t : cb2DynamicTree)
    (input : cb2RayCastInput) (s : S) :
  vec_eq (p1 input) (p2 input) ->
  RayCast ar normalize fuel callback t input s = AssertFailed.
Proof.
  intros H. unfold RayCast.
  rewrite (zero_direction_fails_assert _ _ H). reflexivity.
Qed.

Lemma RayCast_rejects_zero_direction_witness :
  RayCast float32 normalize_axis 0 (logRay ignore_all) single_leaf_tree
    zero_length_ray (tt, []) = AssertFailed.
Proof.
  apply RayCast_rejects_zero_direction.
  split; simpl; lra.
Defined.

(** ** The traversals hand the tree back as they found it *)

Lemma Query_loop_keeps_tree {S : Type} (callback : QueryVisitor S)
    (t : cb2DynamicTree) (box : cb2AABB) (fuel : nat) :
  forall stack s t' s',
    Query_loop fuel callback t box stack s = Returned (t', s') -> t' = t.
Proof.
  induction fuel as [| fuel IH]; intros stack s t' s' H; simpl in H.
  - discriminate.
  - destruct stack as [| nodeId stack]; [congruence |].
    destruct (nodeId =? cb2_nullNode); [eauto |].
    destruct (node_at t nodeId) as [node |]; [| discriminate].
    destruct (cb2TestOverlap (aabb node) box); [| eauto].
    destruct (IsLeaf node); [| eauto].
    destruct (fst (callback s nodeId)); [eauto | congruence].
Qed.

Lemma RayCast_loop_keeps_tree {S : Type} (ar : FloatArith)
    (callback : RayCastVisitor S)
    (t : cb2DynamicTree) (input : cb2RayCastInput) (v abs_v : Vec2)
    (fuel : nat) :
  forall stack fraction segmentAABB s t' s',
    RayCast_loop ar fuel callback t input v abs_v stack fraction segmentAABB s
    = Returned (t', s') -> t' = t.
Proof.
  induction fuel as [| fuel IH];
    intros stack fraction segmentAABB s t' s' H; simpl in H.
  - discriminate.
  - destruct stack as [| nodeId stack]; [congruence |].
    destruct (nodeId =? cb2_nullNode); [eauto |].
    destruct (node_at t nodeId) as [node |]; [| discriminate].
    destruct (negb (cb2TestOverlap (aabb node) segmentAABB)); [eauto |].
    destruct (Qltb 0 (separation ar v abs_v (p1 input) (aabb node))); [eauto |].
    destruct (IsLeaf node); [| eauto].
    destruct (Qeq_bool _ 0); [congruence |].
    destruct (Qltb 0 _); eauto.
Qed.

(** C7: whenever [Query] or [RayCast] returns, for every tree, query box,
    ray input, visitor and visitor state (hence every sequence of callback
    return values), the tree after the call is the tree on entry: root,
    nodes (boxes, user data, parent/next, children, heights), free list
    head and counters. *)
Theorem traversals_keep_tree {S : Type} (ar : FloatArith)
    (normalize : Vec2 -> Vec2)
    (fuel : nat) (qcallback : QueryVisitor S) (rcallback : RayCastVisitor S)
    (t : cb2DynamicTree) (box : cb2AABB) (input : cb2RayCastInput) (s : S) :
  (forall t' s', Query fuel qcallback t box s = Returned (t', s') -> t' = t) /\
  (forall t' s',
     RayCast ar normalize fuel rcallback t input s = Returned (t', s') ->
     t' = t).
Proof.
  split; intros t' s' H.
  - exact (Query_loop_keeps_tree _ _ _ _ _ _ _ _ H).
  - unfold RayCast in H.
    destruct (Qltb 0 (lengthSquared (vsub (p2 input) (p1 input))));
      [| discriminate].
    exact (RayCast_loop_keeps_tree _ _ _ _ _ _ _ _ _ _ _ _ _ H).
Qed.

Lemma traversals_keep_tree_witness :
  (exists t' s',
     Query 20 accept_all sample_tree (box 0 0 2 2) tt = Returned (t', s') /\
     t' = sample_tree) /\
  (exists t' s',
     RayCast float32 normalize_axis 20 clip_then_widen sample_tree sample_ray tt
     = Returned (t', s') /\
     t' = sample_tree).
Proof.
  destruct (traversals_keep_tree float32 normalize_axis 20 accept_all
              clip_then_widen
              sample_tree (box 0 0 2 2) sample_ray tt) as [HQ HR].
  split; exists sample_tree, tt; (split; [reflexivity |]).
  - apply (HQ sample_tree tt). reflexivity.
  - apply (HR sample_tree tt). reflexivity.
Defined.

(** ** The empty tree and null indices *)

(** C9: on an empty tree (root equal to the null index -1), [Query], for
    every query box, and [RayCast], for every ray input that passes the
    assertion on its direction, return normally and invoke no callback: the
    record of invocations stays empty.  More generally, in every tree, a
    null index popped from the stack is skipped without a read of the node
    array, whatever the array holds. *)
Theorem empty_tree_no_callback {S : Type} (ar : FloatArith)
    (normalize : Vec2 -> Vec2)
    (fuel : nat) (qcallback : QueryVisitor S) (rcallback : RayCastVisitor S)
    (t : cb2DynamicTree) (box : cb2AABB) (input : cb2RayCastInput) (s : S) :
  (m_root t = cb2_nullNode ->
   (2 <= fuel)%nat ->
   Query fuel (logQuery qcallback) t box (s, []) = Returned (t, (s, [])) /\
   ((0 < lengthSquared (vsub (p2 input) (p1 input)))%Q ->
    RayCast ar normalize fuel (logRay rcallback) t input (s, [])
    = Returned (t, (s, [])))) /\
  (forall stack,
     Query_loop (Datatypes.S fuel) qcallback t box (cb2_nullNode :: stack) s
     = Query_loop fuel qcallback t box stack s) /\
  (forall v abs_v stack fraction segmentAABB,
     RayCast_loop ar (Datatypes.S fuel) rcallback t input v abs_v
       (cb2_nullNode :: stack) fraction segmentAABB s
     = RayCast_loop ar fuel rcallback t input v abs_v stack
         fraction segmentAABB s).
Proof.
  split; [| split; reflexivity].
  intros Hroot Hfuel.
  destruct fuel as [| [| fuel]]; [lia | lia |].
  split.
  - unfold Query. rewrite Hroot. reflexivity.
  - intros Hlen. unfold RayCast.
    apply Qltb_true in Hlen. rewrite Hlen, Hroot. reflexivity.
Qed.

Lemma empty_tree_no_callback_witness :
  Query 2 (logQuery accept_all) empty_tree (box 0 0 2 2) (tt, [])
  = Returned (empty_tree, (tt, [])) /\
  RayCast float32 normalize_axis 2 (logRay ignore_all) empty_tree sample_ray
    (tt, [])
  = Returned (empty_tree, (tt, [])).
Proof.
  destruct (proj1 (empty_tree_no_callback float32 normalize_axis 2 accept_all
                     ignore_all empty_tree (box 0 0 2 2) sample_ray tt))
    as (HQ & HR).
  - reflexivity.
  - lia.
  - split; [exact HQ |]. apply HR. reflexivity.
Defined.

(** ** The contact-type registry *)

(** Once initialised, the registry is the standard one. *)
Lemma reachable_registers (g : ContactStatics) :
  reachable g ->
  g = initial_statics \/ g = mkStatics standard_registers true.
Proof.
  induction 1 as [| g fA iA fB iB al _ IH].
  - left; reflexivity.
  - right. destruct IH as [-> | ->]; unfold Create; simpl;
      destruct (createFcn _); try destruct (primary _); reflexivity.
Qed.

Lemma Create_result (g : ContactStatics) (fA : cb2Fixture) (iA : Z)
    (fB : cb2Fixture) (iB al : Z) :
  reachable g ->
  snd (Create g fA iA fB iB al) =
  match createFcn (standard_registers (GetType fA) (GetType fB)) with
  | Some f =>
    Some (if primary (standard_registers (GetType fA) (GetType fB))
          then mkCreateCall f fA iA fB iB al
          else mkCreateCall f fB iB fA iA al)
  | None => None
  end.
Proof.
  intros H. destruct (reachable_registers g H) as [-> | ->];
    unfold Create; simpl;
    fold standard_registers;
    destruct (createFcn _); try destruct (primary _); reflexivity.
Qed.

(** C10, as stated, fails: for two distinct circle fixtures the two calls
    of [Create] invoke the same creation function with the fixtures in
    opposite orders. *)
Lemma Create_same_type_keeps_argument_order :
  registered (GetType circleA) (GetType circleB) = true /\
  snd (Create initial_statics circleA 0 circleB 0 9)
  = Some (mkCreateCall cb2CircleContact circleA 0 circleB 0 9) /\
  snd (Create initial_statics circleB 0 circleA 0 9)
  = Some (mkCreateCall cb2CircleContact circleB 0 circleA 0 9) /\
  snd (Create initial_statics circleA 0 circleB 0 9)
  <> snd (Create initial_statics circleB 0 circleA 0 9).
Proof.
  repeat split; try reflexivity. discriminate.
Qed.

(** C10, amended: in every state of the statics the program can reach, for
    two fixtures of different shape types whose pair has a registered
    creation function, [Create(fixtureA, indexA, fixtureB, indexB)] and
    [Create(fixtureB, indexB, fixtureA, indexA)] invoke the same creation
    function with the same arguments, the fixture of the primary type
    first; for two fixtures of the same registered shape type
    (circle-circle, polygon-polygon) both calls invoke the same creation
    function, each with the fixtures in the order it was given; for every
    pair with no registered creation function (edge-edge, edge-chain,
    chain-edge, chain-chain, and no other) both calls return NULL. *)
Theorem Create_order (g : ContactStatics) (fixtureA : cb2Fixture)
    (indexA : Z) (fixtureB : cb2Fixture) (indexB allocator : Z) :
  reachable g ->
  let AB := snd (Create g fixtureA indexA fixtureB indexB allocator) in
  let BA := snd (Create g fixtureB indexB fixtureA indexA allocator) in
  (registered (GetType fixtureA) (GetType fixtureB) = true ->
   GetType fixtureA <> GetType fixtureB ->
   exists call,
     AB = Some call /\ BA = Some call /\
     primary (standard_registers (GetType (cc_fixtureA call))
                (GetType (cc_fixtureB call))) = true /\
     (call = mkCreateCall (cc_fcn call) fixtureA indexA fixtureB indexB
               allocator \/
      call = mkCreateCall (cc_fcn call) fixtureB indexB fixtureA indexA
               allocator)) /\
  (registered (GetType fixtureA) (GetType fixtureB) = true ->
   GetType fixtureA = GetType fixtureB ->
   exists f,
     AB = Some (mkCreateCall f fixtureA indexA fixtureB indexB allocator) /\
     BA = Some (mkCreateCall f fixtureB indexB fixtureA indexA allocator)) /\
  (registered (GetType fixtureA) (GetType fixtureB) = false ->
   AB = None /\ BA = None) /\
  (registered (GetType fixtureA) (GetType fixtureB) = false <->
   (GetType fixtureA = e_edge \/ GetType fixtureA = e_chain) /\
   (GetType fixtureB = e_edge \/ GetType fixtureB = e_chain)).
Proof.
  intros H AB BA. subst AB BA.
  rewrite !(Create_result g _ _ _ _ _ H).
  destruct fixtureA as [ida ta], fixtureB as [idb tb]; simpl.
  split; [| split; [| split; [| split]]].
  - intros Hreg Hne.
    destruct ta, tb; try discriminate Hreg;
      try (exfalso; apply Hne; reflexivity);
      simpl; eexists; (split; [reflexivity |]); (split; [reflexivity |]);
      (split; [reflexivity |]); simpl; auto.
  - intros Hreg He. subst tb.
    destruct ta; try discriminate Hreg; simpl; eexists; split; reflexivity.
  - intros Hreg.
    destruct ta, tb; try discriminate Hreg; split; reflexivity.
  - intros Hreg. destruct ta, tb; try discriminate Hreg; auto.
  - intros [[-> | ->] [-> | ->]]; reflexivity.
Qed.

Lemma Create_order_witness :
  (exists call,
     snd (Create initial_statics polygonA 0 circleA 1 9) = Some call /\
     snd (Create initial_statics circleA 1 polygonA 0 9) = Some call) /\
  (exists f,
     snd (Create initial_statics circleA 0 circleB 1 9)
     = Some (mkCreateCall f circleA 0 circleB 1 9) /\
     snd (Create initial_statics circleB 1 circleA 0 9)
     = Some (mkCreateCall f circleB 1 circleA 0 9)).
Proof.
  split.
  - destruct (Create_order initial_statics polygonA 0 circleA 1 9
                reachable_initial) as (H & _).
    destruct H as (call & H1 & H2 & _).
    + reflexivity.
    + discriminate.
    + exists call. split; assumption.
  - destruct (Create_order initial_statics circleA 0 circleB 1 9
                reachable_initial) as (_ & H & _).
    apply H; reflexivity.
Defined.

(** ** Recording does not change a run *)

Lemma logQuery_forget {S : Type} (callback : QueryVisitor S)
    (t : cb2DynamicTree) (box : cb2AABB) (fuel : nat) :
  forall stack s log,
    forget_log (Query_loop fuel (logQuery callback) t box stack (s, log))
    = Query_loop fuel callback t box stack s.
Proof.
  induction fuel as [| fuel IH]; intros stack s log; simpl.
  - reflexivity.
  - destruct stack as [| nodeId stack]; [reflexivity |].
    destruct (nodeId =? cb2_nullNode); [apply IH |].
    destruct (node_at t nodeId) as [node |]; [| reflexivity].
    destruct (cb2TestOverlap (aabb node) box); [| apply IH].
    destruct (IsLeaf node); [| apply IH].
    destruct (fst (callback s nodeId)); [apply IH | reflexivity].
Qed.

Lemma logRay_forget {S : Type} (ar : FloatArith) (callback : RayCastVisitor S)
    (t : cb2DynamicTree) (input : cb2RayCastInput) (v abs_v : Vec2)
    (fuel : nat) :
  forall stack f seg s log,
    forget_log
      (RayCast_loop ar fuel (logRay callback) t input v abs_v stack f seg
         (s, log))
    = RayCast_loop ar fuel callback t input v abs_v stack f seg s.
Proof.
  induction fuel as [| fuel IH]; intros stack f seg s log; simpl.
  - reflexivity.
  - destruct stack as [| nodeId stack]; [reflexivity |].
    destruct (nodeId =? cb2_nullNode); [apply IH |].
    destruct (node_at t nodeId) as [node |]; [| reflexivity].
    destruct (negb (cb2TestOverlap (aabb node) seg)); [apply IH |].
    destruct (Qltb 0 (separation ar v abs_v (p1 input) (aabb node)));
      [apply IH |].
    destruct (IsLeaf node); [| apply IH].
    destruct (Qeq_bool _ 0); [reflexivity |].
    destruct (Qltb 0 _); apply IH.
Qed.

(** ** Query: the record of invocations *)

Lemma stops_at_false_split (pre : list QueryCall) (c : QueryCall)
    (post : list QueryCall) :
  stops_at_false (pre ++ c :: post) -> snd c = false -> post = [].
Proof.
  induction pre as [| x pre IH]; simpl; intros [H1 H2] Hc.
  - exact (H1 Hc).
  - exact (IH H2 Hc).
Qed.

Lemma Query_loop_calls {S : Type} (callback : QueryVisitor S)
    (t : cb2DynamicTree) (box : cb2AABB) (fuel : nat) :
  forall stack s log t' s' log',
    Query_loop fuel (logQuery callback) t box stack (s, log)
    = Returned (t', (s', log')) ->
    exists calls,
      log' = log ++ calls /\
      Forall (fun c => is_leaf_index t (fst c) /\ overlaps t (fst c) box) calls /\
      stops_at_false calls.
Proof.
  induction fuel as [| fuel IH]; intros stack s log t' s' log' H; simpl in H.
  - discriminate.
  - destruct stack as [| nodeId stack].
    { injection H as _ _ <-. exists []. rewrite app_nil_r.
      repeat split; constructor. }
    destruct (nodeId =? cb2_nullNode); [eauto |].
    destruct (node_at t nodeId) as [node |] eqn:Hnode; [| discriminate].
    destruct (cb2TestOverlap (aabb node) box) eqn:Hov; [| eauto].
    destruct (IsLeaf node) eqn:Hleaf; [| eauto].
    assert (Hc : is_leaf_index t nodeId /\ overlaps t nodeId box).
    { split; exists node; split; assumption. }
    destruct (fst (callback s nodeId)) eqn:Hgo.
    + apply IH in H. destruct H as (calls & -> & Hall & Hstop).
      exists ((nodeId, true) :: calls). rewrite <- app_assoc.
      repeat split; try assumption.
      * constructor; assumption.
      * simpl. discriminate.
    + injection H as _ _ <-. exists [(nodeId, false)].
      repeat split.
      * constructor; [assumption | constructor].
Qed.

(** C4: in every run of [Query] that returns, each invocation of the
    overlap callback passes the index of a leaf node (never of an internal
    node) whose box overlaps the query box, and an invocation that returns
    false is the last one.  At the leaf where the callback returns false
    [Query] returns at once, whatever is still on the stack. *)
Theorem Query_callback_contract {S : Type} (fuel : nat)
    (callback : QueryVisitor S) (t : cb2DynamicTree) (box : cb2AABB)
    (s s' : S) (t' : cb2DynamicTree) (log : list QueryCall) :
  Query fuel (logQuery callback) t box (s, []) = Returned (t', (s', log)) ->
  (forall c, In c log ->
     is_leaf_index t (fst c) /\ overlaps t (fst c) box) /\
  (forall pre c post, log = pre ++ c :: post -> snd c = false -> post = []) /\
  (forall fuel' nodeId node stack s0,
     nodeId <> cb2_nullNode ->
     node_at t nodeId = Some node ->
     cb2TestOverlap (aabb node) box = true ->
     IsLeaf node = true ->
     fst (callback s0 nodeId) = false ->
     Query_loop (Datatypes.S fuel') callback t box (nodeId :: stack) s0
     = Returned (t, snd (callback s0 nodeId))).
Proof.
  intros H. unfold Query in H.
  apply Query_loop_calls in H. destruct H as (calls & Hlog & Hall & Hstop).
  simpl in Hlog. subst log.
  split; [| split].
  - intros c Hc. rewrite Forall_forall in Hall. exact (Hall c Hc).
  - intros pre c post -> Hc. exact (stops_at_false_split _ _ _ Hstop Hc).
  - intros fuel' nodeId node stack s0 Hnn Hnode Hov Hleaf Hgo. simpl.
    apply Z.eqb_neq in Hnn. rewrite Hnn, Hnode, Hov, Hleaf, Hgo. reflexivity.
Qed.

Lemma Query_callback_contract_witness :
  (forall c, In c [(2, false)] ->
     is_leaf_index sample_tree (fst c) /\
     overlaps sample_tree (fst c) (box 0 0 20 2)) /\
  (forall pre c post,
     [(2, false)] = pre ++ c :: post -> snd c = false -> post = []).
Proof.
  destruct (Query_callback_contract 20 stop_at_first sample_tree
              (box 0 0 20 2) tt tt sample_tree [(2, false)])
    as (H1 & H2 & _).
  - reflexivity.
  - split; assumption.
Defined.

(** ** RayCast: the record of invocations *)

Lemma RayCast_loop_calls {S : Type} (ar : FloatArith)
    (callback : RayCastVisitor S)
    (t : cb2DynamicTree) (input : cb2RayCastInput) (v abs_v : Vec2)
    (fuel : nat) :
  forall stack f seg s log t' s' log',
    seg = segment_box ar (p1 input) (p2 input) f ->
    RayCast_loop ar fuel (logRay callback) t input v abs_v stack f seg (s, log)
    = Returned (t', (s', log')) ->
    exists calls,
      log' = log ++ calls /\ ray_calls_ok ar t input v abs_v f calls.
Proof.
  induction fuel as [| fuel IH];
    intros stack f seg s log t' s' log' Hseg H; simpl in H.
  - discriminate.
  - destruct stack as [| nodeId stack].
    { injection H as _ _ <-. exists []. rewrite app_nil_r. split; constructor. }
    destruct (nodeId =? cb2_nullNode); [eauto |].
    destruct (node_at t nodeId) as [node |] eqn:Hnode; [| discriminate].
    destruct (cb2TestOverlap (aabb node) seg) eqn:Hov; simpl in H; [| eauto].
    destruct (Qltb 0 (separation ar v abs_v (p1 input) (aabb node))) eqn:Hsep;
      [eauto |].
    destruct (IsLeaf node) eqn:Hleaf; [| eauto].
    set (sub := mkRayCastInput (p1 input) (p2 input) f) in *.
    set (value := fst (callback s sub nodeId)) in *.
    assert (Hsurv : survives ar t input v abs_v f nodeId).
    { exists node. subst seg. repeat split; assumption. }
    destruct (Qeq_bool value 0) eqn:Hzero.
    + injection H as _ _ <-. exists [mkRayCall sub nodeId value].
      split; [reflexivity |]. simpl. repeat split; assumption.
    + assert (Hnz : ~ (value == 0)%Q).
      { intros E. apply Qeq_bool_iff in E. congruence. }
      destruct (Qltb 0 value) eqn:Hpos.
      * apply IH in H; [| reflexivity].
        destruct H as (calls & -> & Hok).
        exists (mkRayCall sub nodeId value :: calls). rewrite <- app_assoc.
        split; [reflexivity |]. simpl. repeat split; try assumption.
        -- intros E. contradiction.
        -- unfold clip. rewrite Hpos. exact Hok.
      * apply IH in H; [| exact Hseg].
        destruct H as (calls & -> & Hok).
        exists (mkRayCall sub nodeId value :: calls). rewrite <- app_assoc.
        split; [reflexivity |]. simpl. repeat split; try assumption.
        -- intros E. contradiction.
        -- unfold clip. rewrite Hpos. exact Hok.
Qed.

(** The record of a run of [RayCast], with the axis the run uses. *)
Lemma RayCast_calls_axis {S : Type} (ar : FloatArith)
    (normalize : Vec2 -> Vec2) (fuel : nat)
    (callback : RayCastVisitor S) (t : cb2DynamicTree)
    (input : cb2RayCastInput) (s s' : S) (t' : cb2DynamicTree)
    (log : list RayCall) :
  RayCast ar normalize fuel (logRay callback) t input (s, [])
  = Returned (t', (s', log)) ->
  ray_calls_ok ar t input (ray_axis normalize input)
    (cb2Abs (ray_axis normalize input)) (maxFraction input) log.
Proof.
  unfold RayCast, ray_axis. intros H.
  destruct (Qltb 0 (lengthSquared (vsub (p2 input) (p1 input))));
    [| discriminate].
  apply RayCast_loop_calls in H; [| reflexivity].
  destruct H as (calls & -> & Hok). exact Hok.
Qed.

Lemma RayCast_calls {S : Type} (ar : FloatArith) (normalize : Vec2 -> Vec2)
    (fuel : nat)
    (callback : RayCastVisitor S) (t : cb2DynamicTree)
    (input : cb2RayCastInput) (s s' : S) (t' : cb2DynamicTree)
    (log : list RayCall) :
  RayCast ar normalize fuel (logRay callback) t input (s, [])
  = Returned (t', (s', log)) ->
  exists v abs_v, ray_calls_ok ar t input v abs_v (maxFraction input) log.
Proof.
  intros H. apply RayCast_calls_axis in H. eauto.
Qed.

Lemma clipped_fraction_cons (f : Q) (c : RayCall) (calls : list RayCall) :
  clipped_fraction f (c :: calls) = clipped_fraction (clip f (rc_value c)) calls.
Proof. reflexivity. Qed.

Lemma clipped_fraction_app (f : Q) (pre post : list RayCall) :
  clipped_fraction f (pre ++ post)
  = clipped_fraction (clipped_fraction f pre) post.
Proof. unfold clipped_fraction. apply fold_left_app. Qed.

(** The invocations after a prefix are those of a traversal that starts
    with the max fraction the prefix leaves. *)
Lemma ray_calls_ok_suffix (ar : FloatArith)
    (t : cb2DynamicTree) (input : cb2RayCastInput)
    (v abs_v : Vec2) (pre post : list RayCall) :
  forall f,
    ray_calls_ok ar t input v abs_v f (pre ++ post) ->
    ray_calls_ok ar t input v abs_v (clipped_fraction f pre) post.
Proof.
  induction pre as [| c pre IH]; intros f H.
  - exact H.
  - rewrite clipped_fraction_cons. apply IH. simpl in H. tauto.
Qed.

(** C8: in every run of [RayCast] that returns, each invocation of the ray
    callback receives a sub-input whose [p1] and [p2] are those of the
    original input and whose [maxFraction] is the current clipped
    fraction: the most recent positive value returned by an earlier
    invocation, or the original [maxFraction] if there is none. *)
Theorem RayCast_sub_input {S : Type} (ar : FloatArith)
    (normalize : Vec2 -> Vec2) (fuel : nat)
    (callback : RayCastVisitor S) (t : cb2DynamicTree)
    (input : cb2RayCastInput) (s s' : S) (t' : cb2DynamicTree)
    (log : list RayCall) :
  RayCast ar normalize fuel (logRay callback) t input (s, [])
  = Returned (t', (s', log)) ->
  forall pre c post,
    log = pre ++ c :: post ->
    p1 (rc_input c) = p1 input /\
    p2 (rc_input c) = p2 input /\
    maxFraction (rc_input c) = clipped_fraction (maxFraction input) pre.
Proof.
  intros H pre c post ->.
  apply RayCast_calls in H. destruct H as (v & abs_v & Hok).
  apply ray_calls_ok_suffix in Hok. simpl in Hok.
  destruct Hok as (-> & _). repeat split.
Qed.

Lemma RayCast_sub_input_witness :
  maxFraction (mkRayCastInput (mkVec2 0 0) (mkVec2 16 0) (1 # 2))
  = clipped_fraction (maxFraction sample_ray)
      [mkRayCall sample_ray 2 (1 # 2)].
Proof.
  apply (RayCast_sub_input float32 normalize_axis 20 clip_then_widen sample_tree
           sample_ray tt tt sample_tree
           [mkRayCall sample_ray 2 (1 # 2);
            mkRayCall (mkRayCastInput (mkVec2 0 0) (mkVec2 16 0) (1 # 2)) 3 1;
            mkRayCall sample_ray 4 (-1)]
           eq_refl
           [mkRayCall sample_ray 2 (1 # 2)]
           (mkRayCall (mkRayCastInput (mkVec2 0 0) (mkVec2 16 0) (1 # 2)) 3 1)
           [mkRayCall sample_ray 4 (-1)] eq_refl).
Defined.

(** C3, as stated, fails: a positive return does not always shrink the
    segment box.  On [sample_tree] the visitor [clip_then_widen] returns
    1/2 at leaf A, which makes the segment box the segment from 0 to 8,
    and then 1 at leaf B: the box becomes the segment from 0 to 16, which
    the earlier box does not contain, and leaf C, which lies outside the
    earlier box, passes the overlap test and reaches the callback. *)
Lemma positive_return_grows_segment_box :
  let before := segment_box float32 (p1 sample_ray) (p2 sample_ray) (1 # 2) in
  let after := segment_box float32 (p1 sample_ray) (p2 sample_ray) 1 in
  before = box 0 0 8 0 /\
  after = box 0 0 16 0 /\
  Contains before after = false /\
  RayCast_loop float32 3 (logRay clip_then_widen) sample_tree sample_ray
    (mkVec2 0 1) (mkVec2 0 1) [3; 4] (1 # 2) before (tt, [])
  = RayCast_loop float32 2 (logRay clip_then_widen) sample_tree sample_ray
      (mkVec2 0 1) (mkVec2 0 1) [4] 1 after
      (tt, [mkRayCall (mkRayCastInput (mkVec2 0 0) (mkVec2 16 0) (1 # 2)) 3 1])
  /\
  RayCast float32 normalize_axis 6 (logRay clip_then_widen) sample_tree
    sample_ray (tt, [])
  = Returned
      (sample_tree,
       (tt,
        [mkRayCall sample_ray 2 (1 # 2);
         mkRayCall (mkRayCastInput (mkVec2 0 0) (mkVec2 16 0) (1 # 2)) 3 1;
         mkRayCall sample_ray 4 (-1)])) /\
  node_at sample_tree 4 = Some (leaf_node (box 12 (-1) 13 1) 102 1) /\
  cb2TestOverlap (box 12 (-1) 13 1) before = false /\
  cb2TestOverlap (box 12 (-1) 13 1) after = true.
Proof.
  cbv zeta. repeat split; vm_compute; reflexivity.
Qed.

(** C3, amended: how [RayCast] reads the value the ray callback returns at
    a leaf that passed both pruning tests.  The segment box of a fraction
    is the box of [p1] and the point computed, in the arithmetic of the
    machine, as [p1 + fraction * (p2 - p1)].  In one turn of the loop:
    value 0 ends the call at once, whatever is still on the stack; a
    positive value becomes the max fraction, and the segment box becomes
    the segment box of that value, be it inside the earlier box or not; a
    negative value leaves the max fraction and the segment box as they are
    and the loop goes on.  In the record of a run that returns: an
    invocation that returned 0 is the last; the invocation after one that
    returned a positive value gets that value as max fraction and is on a
    leaf that passed the overlap test against the segment box of that
    value and the separating-axis test on the axis of the run; the
    invocation after one that returned a negative value gets the max
    fraction the earlier one got and is on a leaf that passed the tests
    against the segment box of that. *)
Theorem RayCast_return_value {S : Type} (ar : FloatArith)
    (normalize : Vec2 -> Vec2) (callback : RayCastVisitor S)
    (t : cb2DynamicTree) (input : cb2RayCastInput) :
  (forall m,
     segment_box ar (p1 input) (p2 input) m
     = let e := fvadd ar (p1 input)
                  (fvscale ar m (fvsub ar (p2 input) (p1 input))) in
       mkAABB (cb2Min (p1 input) e) (cb2Max (p1 input) e)) /\
  (forall fuel v abs_v nodeId node stack f seg s,
     nodeId <> cb2_nullNode ->
     node_at t nodeId = Some node ->
     cb2TestOverlap (aabb node) seg = true ->
     Qltb 0 (separation ar v abs_v (p1 input) (aabb node)) = false ->
     IsLeaf node = true ->
     let r := callback s (mkRayCastInput (p1 input) (p2 input) f) nodeId in
     let run := RayCast_loop ar (Datatypes.S fuel) callback t input v abs_v
                  (nodeId :: stack) f seg s in
     ((fst r == 0)%Q -> run = Returned (t, snd r)) /\
     ((0 < fst r)%Q ->
      run = RayCast_loop ar fuel callback t input v abs_v stack (fst r)
              (segment_box ar (p1 input) (p2 input) (fst r)) (snd r)) /\
     ((fst r < 0)%Q ->
      run = RayCast_loop ar fuel callback t input v abs_v stack f seg
              (snd r))) /\
  (forall fuel s s' t' log,
     RayCast ar normalize fuel (logRay callback) t input (s, [])
     = Returned (t', (s', log)) ->
     let v := ray_axis normalize input in
     forall pre c post,
       log = pre ++ c :: post ->
       ((rc_value c == 0)%Q -> post = []) /\
       (forall d rest,
          post = d :: rest ->
          ((0 < rc_value c)%Q ->
           maxFraction (rc_input d) = rc_value c /\
           survives ar t input v (cb2Abs v) (rc_value c) (rc_node d)) /\
          ((rc_value c < 0)%Q ->
           maxFraction (rc_input d) = maxFraction (rc_input c) /\
           survives ar t input v (cb2Abs v) (maxFraction (rc_input c))
             (rc_node d)))).
Proof.
  split; [reflexivity |]. split.
  - intros fuel v abs_v nodeId node stack f seg s Hnn Hnode Hov Hsep Hleaf r run.
    subst run. simpl. fold r.
    apply Z.eqb_neq in Hnn. rewrite Hnn, Hnode, Hov, Hsep, Hleaf. simpl.
    split; [| split].
    + intros H0. apply Qeq_bool_iff in H0. rewrite H0. reflexivity.
    + intros Hpos.
      assert (Hnz : Qeq_bool (fst r) 0 = false).
      { destruct (Qeq_bool (fst r) 0) eqn:E; [| reflexivity].
        apply Qeq_bool_iff in E. lra. }
      apply Qltb_true in Hpos. rewrite Hnz, Hpos. reflexivity.
    + intros Hneg.
      assert (Hnz : Qeq_bool (fst r) 0 = false).
      { destruct (Qeq_bool (fst r) 0) eqn:E; [| reflexivity].
        apply Qeq_bool_iff in E. lra. }
      assert (Hnp : Qltb 0 (fst r) = false) by (apply Qltb_false; lra).
      rewrite Hnz, Hnp. reflexivity.
  - intros fuel s s' t' log H v pre c post ->.
    apply RayCast_calls_axis in H. fold v in H.
    apply ray_calls_ok_suffix in H. simpl in H.
    destruct H as (Hin & _ & Hzero & Hrest).
    split; [exact Hzero |].
    intros d rest ->. simpl in Hrest. destruct Hrest as (Hd & Hsurv & _).
    rewrite Hd, Hin. simpl. unfold clip in *. split.
    + intros Hpos. apply Qltb_true in Hpos. rewrite Hpos in *.
      split; [reflexivity | exact Hsurv].
    + intros Hneg.
      assert (Hnp : Qltb 0 (rc_value c) = false) by (apply Qltb_false; lra).
      rewrite Hnp in *. split; [reflexivity | exact Hsurv].
Qed.

Lemma RayCast_return_value_witness :
  RayCast_loop float32 5 clip_then_widen sample_tree sample_ray
    (mkVec2 0 1) (mkVec2 0 1) [2; 1] 1 (box 0 0 16 0) tt
  = RayCast_loop float32 4 clip_then_widen sample_tree sample_ray
      (mkVec2 0 1) (mkVec2 0 1) [1] (1 # 2) (box 0 0 8 0) tt.
Proof.
  assert (E : segment_box float32 (p1 sample_ray) (p2 sample_ray) (1 # 2)
              = box 0 0 8 0) by (vm_compute; reflexivity).
  rewrite <- E.
  refine (proj1 (proj2 (proj1 (proj2 (RayCast_return_value float32
                                        normalize_axis clip_then_widen
                                        sample_tree sample_ray))
                          4%nat (mkVec2 0 1) (mkVec2 0 1) 2
                          (leaf_node (box 0 (-1) 1 1) 100 0) [1] 1%Q
                          (box 0 0 16 0) tt _ _ _ _ _)) _).
  - discriminate.
  - reflexivity.
  - reflexivity.
  - reflexivity.
  - reflexivity.
  - reflexivity.
Defined.

(** ** RayCast: pruning against the clipped segment *)

Lemma cb2TestOverlap_true (a b : cb2AABB) :
  cb2TestOverlap a b = true <->
  (vx (lowerBound b) <= vx (upperBound a) /\
   vy (lowerBound b) <= vy (upperBound a) /\
   vx (lowerBound a) <= vx (upperBound b) /\
   vy (lowerBound a) <= vy (upperBound b))%Q.
Proof.
  unfold cb2TestOverlap, vsub; simpl.
  destruct (Qltb 0 (vx (lowerBound b) - vx (upperBound a))) eqn:E1;
  destruct (Qltb 0 (vy (lowerBound b) - vy (upperBound a))) eqn:E2;
  destruct (Qltb 0 (vx (lowerBound a) - vx (upperBound b))) eqn:E3;
  destruct (Qltb 0 (vy (lowerBound a) - vy (upperBound b))) eqn:E4;
  simpl;
  repeat match goal with
         | H : Qltb _ _ = true |- _ => apply Qltb_true in H
         | H : Qltb _ _ = false |- _ => apply Qltb_false in H
         end;
  split; intros H; try discriminate; try reflexivity;
  try (repeat split; lra); try (exfalso; lra).
Qed.

Lemma Contains_true (a b : cb2AABB) :
  Contains a b = true <->
  (vx (lowerBound a) <= vx (lowerBound b) /\
   vy (lowerBound a) <= vy (lowerBound b) /\
   vx (upperBound b) <= vx (upperBound a) /\
   vy (upperBound b) <= vy (upperBound a))%Q.
Proof.
  unfold Contains. rewrite !andb_true_iff, !Qle_bool_iff. tauto.
Qed.

(** One axis: a box interval that meets the interval from [a] to the end
    point [e] of fraction [m], and contains the ray at a later fraction,
    contains the ray at [m]. *)
Lemma axis_clip (a d lo hi m f0 e : Q) :
  (e == a + m * d)%Q ->
  (0 <= m)%Q -> (m <= f0)%Q ->
  (cb2MinF a e <= hi)%Q ->
  (lo <= cb2MaxF a e)%Q ->
  (lo <= a + f0 * d)%Q -> (a + f0 * d <= hi)%Q ->
  (lo <= a + m * d /\ a + m * d <= hi)%Q.
Proof.
  intros He Hm Hmf Hmin Hmax Hlo Hhi.
  unfold cb2MinF in Hmin. unfold cb2MaxF in Hmax.
  destruct (Qlt_le_dec d 0) as [Hd | Hd].
  - assert (H1 : (f0 * d <= m * d)%Q) by nra.
    assert (H2 : (m * d <= 0)%Q) by nra.
    destruct (Qltb a e) eqn:E.
    + apply Qltb_true in E. lra.
    + destruct (Qltb e a); lra.
  - assert (H1 : (m * d <= f0 * d)%Q) by nra.
    assert (H2 : (0 <= m * d)%Q) by nra.
    destruct (Qltb e a) eqn:E.
    + apply Qltb_true in E. lra.
    + destruct (Qltb a e); lra.
Qed.

(** Arithmetic that does not round computes every end point exactly. *)
Lemma end_exact_without_rounding (input : cb2RayCastInput) (f : Q) :
  end_exact exact_arith input f.
Proof.
  unfold end_exact, segment_end, ray_point. simpl. split; reflexivity.
Qed.

(** A box that overlaps the segment box of fraction [m], whose end point
    was computed without rounding error, does not have its nearest point
    along the ray beyond [m]. *)
Lemma overlap_not_beyond (ar : FloatArith) (input : cb2RayCastInput)
    (b : cb2AABB) (m : Q) :
  (0 <= m)%Q ->
  end_exact ar input m ->
  cb2TestOverlap b (segment_box ar (p1 input) (p2 input) m) = true ->
  ~ beyond input b m.
Proof.
  intros Hm [Ex Ey] Hov [[f0 [Hf0 Hin]] Hall].
  apply cb2TestOverlap_true in Hov.
  unfold segment_box, cb2Min, cb2Max in Hov; simpl in Hov.
  destruct Hov as (Hx1 & Hy1 & Hx2 & Hy2).
  unfold ray_point, vadd, vscale, vsub in Ex, Ey; simpl in Ex, Ey.
  unfold in_box, ray_point, vadd, vscale, vsub in Hin; simpl in Hin.
  destruct Hin as (Ix1 & Ix2 & Iy1 & Iy2).
  destruct (Qlt_le_dec m f0) as [Hlt | Hge].
  - assert (Hhit : hits_at input b m).
    { split; [exact Hm |].
      unfold in_box, ray_point, vadd, vscale, vsub; simpl.
      pose proof (axis_clip (vx (p1 input)) (vx (p2 input) - vx (p1 input))
                    (vx (lowerBound b)) (vx (upperBound b)) m f0 _
                    Ex Hm (Qlt_le_weak _ _ Hlt) Hx1 Hx2 Ix1 Ix2) as [A1 A2].
      pose proof (axis_clip (vy (p1 input)) (vy (p2 input) - vy (p1 input))
                    (vy (lowerBound b)) (vy (upperBound b)) m f0 _
                    Ey Hm (Qlt_le_weak _ _ Hlt) Hy1 Hy2 Iy1 Iy2) as [B1 B2].
      tauto. }
    apply Hall in Hhit. lra.
  - assert (Hhit : hits_at input b f0).
    { split; [exact Hf0 |].
      unfold in_box, ray_point, vadd, vscale, vsub; simpl. tauto. }
    apply Hall in Hhit. lra.
Qed.

Lemma beyond_weaken (input : cb2RayCastInput) (b : cb2AABB) (m f : Q) :
  (m <= f)%Q -> beyond input b f -> beyond input b m.
Proof.
  intros Hmf [Hex Hall]. split; [exact Hex |].
  intros f0 Hf0. apply Hall in Hf0. lra.
Qed.

(** While the values returned stay at or below a positive [f], the max
    fraction stays positive and at or below [f]. *)
Lemma clipped_fraction_bound (f : Q) (calls : list RayCall) :
  forall m,
    (0 < m)%Q -> (m <= f)%Q ->
    (forall e, In e calls -> (rc_value e <= f)%Q) ->
    (0 < clipped_fraction m calls /\ clipped_fraction m calls <= f)%Q.
Proof.
  induction calls as [| c calls IH]; intros m Hm Hmf Hall.
  - simpl. split; assumption.
  - rewrite clipped_fraction_cons. apply IH.
    + unfold clip. destruct (Qltb 0 (rc_value c)) eqn:E;
        [apply Qltb_true in E; exact E | exact Hm].
    + unfold clip. destruct (Qltb 0 (rc_value c)) eqn:E;
        [apply Hall; left; reflexivity | exact Hmf].
    + intros e He. apply Hall. right; exact He.
Qed.

(** C2, as stated, fails, in two ways.
    Widening: the visitor [clip_then_widen] returns 1/2 at leaf A and
    later 1 at leaf B; the traversal then invokes the callback on leaf C,
    whose nearest point along the ray is at fraction 3/4, beyond 1/2.
    Rounding: on [near_far_tree] and the ray from the origin to (10, 0),
    the visitor [clip_to_seven_tenths] returns 0.7f at the near leaf; the
    end point the machine computes for it is 0.7f * 10 rounded to a float,
    which is 7, so the far leaf, whose box starts at x = 7 (at fraction
    7/10, beyond 0.7f), overlaps the segment box and reaches the
    callback. *)
Lemma later_leaf_beyond_fraction :
  (RayCast float32 normalize_axis 6 (logRay clip_then_widen) sample_tree
     sample_ray (tt, [])
   = Returned
       (sample_tree,
        (tt,
         [mkRayCall sample_ray 2 (1 # 2);
          mkRayCall (mkRayCastInput (mkVec2 0 0) (mkVec2 16 0) (1 # 2)) 3 1;
          mkRayCall sample_ray 4 (-1)])) /\
   node_at sample_tree 4 = Some (leaf_node (box 12 (-1) 13 1) 102 1) /\
   beyond sample_ray (box 12 (-1) 13 1) (1 # 2)) /\
  (RayCast float32 normalize_axis 6 (logRay clip_to_seven_tenths)
     near_far_tree decimal_ray (tt, [])
   = Returned
       (near_far_tree,
        (tt,
         [mkRayCall decimal_ray 2 seven_tenths;
          mkRayCall (mkRayCastInput (mkVec2 0 0) (mkVec2 10 0) seven_tenths)
            1 (-1)])) /\
   node_at near_far_tree 1 = Some (leaf_node (box 7 (-1) 8 1) 101 0) /\
   segment_end float32 (p1 decimal_ray) (p2 decimal_ray) seven_tenths
   = mkVec2 7 0 /\
   beyond decimal_ray (box 7 (-1) 8 1) seven_tenths).
Proof.
  split.
  - split; [vm_compute; reflexivity |]. split; [reflexivity |].
    split.
    + exists (3 # 4). split; [lra |].
      unfold in_box, ray_point, vadd, vscale, vsub; simpl. lra.
    + intros f0 [_ Hin].
      unfold in_box, ray_point, vadd, vscale, vsub in Hin; simpl in Hin. lra.
  - split; [vm_compute; reflexivity |]. split; [reflexivity |].
    split; [vm_compute; reflexivity |].
    split.
    + exists (7 # 10). split; [lra |].
      unfold in_box, ray_point, vadd, vscale, vsub; simpl. lra.
    + intros f0 [_ Hin].
      unfold in_box, ray_point, vadd, vscale, vsub in Hin; simpl in Hin.
      unfold seven_tenths. lra.
Qed.

(** C2, amended: within a run of [RayCast] that returns, whenever the
    visitor returns a positive fraction f on a leaf, and every value it
    returns from then until a later invocation is at most f, that later
    invocation gets a max fraction m with 0 < m <= f and is on a leaf whose
    box overlaps the box of [p1] and the end point the machine computes
    for m; when that end point carries no rounding error, the leaf is not
    one whose nearest point along the ray lies beyond f. *)
Theorem RayCast_narrowing {S : Type} (ar : FloatArith)
    (normalize : Vec2 -> Vec2) (fuel : nat)
    (callback : RayCastVisitor S) (t : cb2DynamicTree)
    (input : cb2RayCastInput) (s s' : S) (t' : cb2DynamicTree)
    (log : list RayCall) :
  RayCast ar normalize fuel (logRay callback) t input (s, [])
  = Returned (t', (s', log)) ->
  forall pre c mid d post n,
    log = pre ++ c :: mid ++ d :: post ->
    (0 < rc_value c)%Q ->
    (forall e, In e mid -> (rc_value e <= rc_value c)%Q) ->
    node_at t (rc_node d) = Some n ->
    let m := maxFraction (rc_input d) in
    (0 < m)%Q /\ (m <= rc_value c)%Q /\
    cb2TestOverlap (aabb n)
      (let e := fvadd ar (p1 input)
                  (fvscale ar m (fvsub ar (p2 input) (p1 input))) in
       mkAABB (cb2Min (p1 input) e) (cb2Max (p1 input) e)) = true /\
    (end_exact ar input m -> ~ beyond input (aabb n) (rc_value c)).
Proof.
  intros H pre c mid d post n -> Hpos Hmid Hn m.
  apply RayCast_calls in H. destruct H as (v & abs_v & Hok).
  replace (pre ++ c :: mid ++ d :: post)
    with ((pre ++ c :: mid) ++ d :: post) in Hok
    by (rewrite <- app_assoc; reflexivity).
  apply ray_calls_ok_suffix in Hok.
  rewrite clipped_fraction_app, clipped_fraction_cons in Hok.
  assert (Hclip : clip (clipped_fraction (maxFraction input) pre) (rc_value c)
                  = rc_value c).
  { unfold clip. apply Qltb_true in Hpos. rewrite Hpos. reflexivity. }
  rewrite Hclip in Hok.
  destruct (clipped_fraction_bound (rc_value c) mid (rc_value c) Hpos
              (Qle_refl _) Hmid) as [Hm0 Hmf].
  simpl in Hok. destruct Hok as (Hin & Hsurv & _).
  destruct Hsurv as (n' & Hn' & _ & Hov & _).
  assert (n' = n) by congruence. subst n'.
  assert (Em : m = clipped_fraction (rc_value c) mid).
  { unfold m. rewrite Hin. reflexivity. }
  rewrite Em.
  split; [exact Hm0 |]. split; [exact Hmf |]. split; [exact Hov |].
  intros Hex Hbeyond.
  apply (overlap_not_beyond ar input (aabb n)
           (clipped_fraction (rc_value c) mid)).
  - lra.
  - exact Hex.
  - exact Hov.
  - exact (beyond_weaken _ _ _ _ Hmf Hbeyond).
Qed.

Lemma RayCast_narrowing_witness :
  cb2TestOverlap (box 2 (-1) 3 1) (box 0 0 8 0) = true /\
  ~ beyond sample_ray (box 2 (-1) 3 1) (1 # 2).
Proof.
  destruct (RayCast_narrowing float32 normalize_axis 6 clip_then_stop
              sample_tree sample_ray tt tt sample_tree
              [mkRayCall sample_ray 2 (1 # 2);
               mkRayCall (mkRayCastInput (mkVec2 0 0) (mkVec2 16 0) (1 # 2))
                 3 0]
              eq_refl
              []
              (mkRayCall sample_ray 2 (1 # 2))
              []
              (mkRayCall (mkRayCastInput (mkVec2 0 0) (mkVec2 16 0) (1 # 2))
                 3 0)
              []
              (leaf_node (box 2 (-1) 3 1) 101 1)
              eq_refl)
    as (_ & _ & Hov & Hnot).
  - reflexivity.
  - intros e [].
  - reflexivity.
  - split; [exact Hov |]. apply Hnot. split; reflexivity.
Defined.

(** ** Query on a tree whose boxes enclose their children *)

Lemma Contains_refl (a : cb2AABB) : Contains a a = true.
Proof. apply Contains_true. repeat split; apply Qle_refl. Qed.

Lemma Contains_trans (a b c : cb2AABB) :
  Contains a b = true -> Contains b c = true -> Contains a c = true.
Proof. rewrite !Contains_true. intros H1 H2. repeat split; lra. Qed.

(** A box that contains a box overlapping [q] overlaps [q]. *)
Lemma overlap_of_contained (a b q : cb2AABB) :
  Contains a b = true -> cb2TestOverlap b q = true ->
  cb2TestOverlap a q = true.
Proof.
  rewrite !cb2TestOverlap_true, Contains_true. intros H1 H2.
  repeat split; lra.
Qed.

Lemma no_leaf_under_null (t : cb2DynamicTree) (x : Z) :
  ~ leaf_under t cb2_nullNode x.
Proof.
  intros H. inversion H; subst; congruence.
Qed.

Lemma leaf_under_leaf (t : cb2DynamicTree) (i x : Z) (n : cb2TreeNode) :
  node_at t i = Some n -> IsLeaf n = true -> leaf_under t i x -> x = i.
Proof.
  intros Hn Hleaf H. inversion H; subst; congruence.
Qed.

Lemma leaf_under_node (t : cb2DynamicTree) (i x : Z) (n : cb2TreeNode) :
  node_at t i = Some n -> IsLeaf n = false -> leaf_under t i x ->
  leaf_under t (child1 n) x \/ leaf_under t (child2 n) x.
Proof.
  intros Hn Hleaf H. inversion H; subst.
  - congruence.
  - left. congruence.
  - right. congruence.
Qed.

(** In a fitted tree the box of a node contains the box of every leaf
    below it. *)
Lemma fitted_covers (t : cb2DynamicTree) (i x : Z) :
  leaf_under t i x ->
  forall n nx,
    fitted t i -> node_at t i = Some n -> node_at t x = Some nx ->
    Contains (aabb n) (aabb nx) = true.
Proof.
  induction 1 as [i n0 Hnn Hn0 Hleaf
                 | i n0 x Hnn Hn0 Hleaf Hunder IH
                 | i n0 x Hnn Hn0 Hleaf Hunder IH];
    intros n nx Hfit Hn Hnx.
  - assert (n = nx) by congruence. subst. apply Contains_refl.
  - assert (n0 = n) by congruence. subst n0.
    inversion Hfit as [| j m _ Hm Hl | j m _ Hm Hl He1 He2 Hf1 Hf2]; subst.
    + congruence.
    + congruence.
    + assert (m = n) by congruence. subst m.
      destruct He1 as [Hnull | (cn & Hcn & Hcont)].
      * rewrite Hnull in Hunder. now apply no_leaf_under_null in Hunder.
      * apply (Contains_trans _ (aabb cn)); [exact Hcont |].
        exact (IH cn nx Hf1 Hcn Hnx).
  - assert (n0 = n) by congruence. subst n0.
    inversion Hfit as [| j m _ Hm Hl | j m _ Hm Hl He1 He2 Hf1 Hf2]; subst.
    + congruence.
    + congruence.
    + assert (m = n) by congruence. subst m.
      destruct He2 as [Hnull | (cn & Hcn & Hcont)].
      * rewrite Hnull in Hunder. now apply no_leaf_under_null in Hunder.
      * apply (Contains_trans _ (aabb cn)); [exact Hcont |].
        exact (IH cn nx Hf2 Hcn Hnx).
Qed.

Lemma Query_loop_step {S : Type} (callback : QueryVisitor S)
    (t : cb2DynamicTree) (box : cb2AABB) (fuel : nat) (nodeId : Z)
    (stack : list Z) (s : S) :
  Query_loop (Datatypes.S fuel) callback t box (nodeId :: stack) s =
  if nodeId =? cb2_nullNode then Query_loop fuel callback t box stack s
  else
    match node_at t nodeId with
    | None => OutOfBounds
    | Some node =>
      if cb2TestOverlap (aabb node) box then
        if IsLeaf node then
          if fst (callback s nodeId)
          then Query_loop fuel callback t box stack (snd (callback s nodeId))
          else Returned (t, snd (callback s nodeId))
        else
          Query_loop fuel callback t box
            (child2 node :: child1 node :: stack) s
      else Query_loop fuel callback t box stack s
    end.
Proof. reflexivity. Qed.

(** The whole subtree below the index on top of the stack is processed in
    finitely many turns; the callback, which never stops the traversal, is
    invoked on the leaves of the subtree whose box overlaps the query
    box. *)
Lemma Query_loop_subtree {S : Type} (callback : QueryVisitor S)
    (t : cb2DynamicTree) (box : cb2AABB) :
  (forall s i, fst (callback s i) = true) ->
  forall i,
    fitted t i ->
    forall stack s log,
    exists turns s' calls,
      (forall fuel,
         Query_loop (turns + fuel) (logQuery callback) t box (i :: stack)
           (s, log)
         = Query_loop fuel (logQuery callback) t box stack
             (s', log ++ calls)) /\
      (forall x,
         In x (map fst calls) <-> leaf_under t i x /\ overlaps t x box).
Proof.
  intros Hgo i Hfit.
  induction Hfit as [| i n Hnn Hn Hleaf
                    | i n Hnn Hn Hleaf He1 He2 Hf1 IH1 Hf2 IH2];
    intros stack s log.
  - exists 1%nat, s, []. split.
    + intros fuel. rewrite app_nil_r. reflexivity.
    + intros x. simpl. split; [tauto |].
      intros [H _]. now apply no_leaf_under_null in H.
  - apply Z.eqb_neq in Hnn.
    destruct (cb2TestOverlap (aabb n) box) eqn:Hov.
    + exists 1%nat, (snd (callback s i)), [(i, fst (callback s i))]. split.
      * intros fuel. simpl Nat.add. rewrite Query_loop_step.
        rewrite Hnn, Hn, Hov, Hleaf. simpl. rewrite Hgo. reflexivity.
      * intros x. simpl. split.
        -- intros [<- | []]. split.
           ++ apply (leaf_here t i n); [apply Z.eqb_neq; exact Hnn | | ];
                assumption.
           ++ exists n. split; assumption.
        -- intros [H _]. left. symmetry.
           exact (leaf_under_leaf t i x n Hn Hleaf H).
    + exists 1%nat, s, []. split.
      * intros fuel. simpl Nat.add. rewrite Query_loop_step.
        rewrite Hnn, Hn, Hov, app_nil_r. reflexivity.
      * intros x. simpl. split; [tauto |].
        intros [H (nx & Hnx & Hox)].
        apply (leaf_under_leaf t i x n Hn Hleaf) in H. subst x.
        congruence.
  - pose proof (fitted_node t i n Hnn Hn Hleaf He1 He2 Hf1 Hf2) as Hfit.
    apply Z.eqb_neq in Hnn.
    destruct (cb2TestOverlap (aabb n) box) eqn:Hov.
    + destruct (IH2 (child1 n :: stack) s log) as (k2 & s2 & calls2 & R2 & L2).
      destruct (IH1 stack s2 (log ++ calls2)) as (k1 & s1 & calls1 & R1 & L1).
      exists (Datatypes.S (k2 + k1)), s1, (calls2 ++ calls1). split.
      * intros fuel.
        replace (Datatypes.S (k2 + k1) + fuel)%nat
          with (Datatypes.S (k2 + (k1 + fuel))) by lia.
        rewrite Query_loop_step. rewrite Hnn, Hn, Hov, Hleaf.
        rewrite R2, R1, app_assoc. reflexivity.
      * intros x. rewrite map_app, in_app_iff, L2, L1. split.
        -- intros [[H Hx] | [H Hx]]; (split; [| exact Hx]).
           ++ apply (leaf_child2 t i n x); try assumption.
              apply Z.eqb_neq; exact Hnn.
           ++ apply (leaf_child1 t i n x); try assumption.
              apply Z.eqb_neq; exact Hnn.
        -- intros [H Hx].
           destruct (leaf_under_node t i x n Hn Hleaf H); tauto.
    + exists 1%nat, s, []. split.
      * intros fuel. simpl Nat.add. rewrite Query_loop_step.
        rewrite Hnn, Hn, Hov, app_nil_r. reflexivity.
      * intros x. simpl. split; [tauto |].
        intros [H (nx & Hnx & Hox)].
        pose proof (fitted_covers t i x H n nx Hfit Hn Hnx) as Hcont.
        rewrite (overlap_of_contained _ _ _ Hcont Hox) in Hov.
        discriminate.
Qed.

Lemma encloses_b_sound (t : cb2DynamicTree) (n : cb2TreeNode) (c : Z) :
  encloses_b t n c = true -> encloses t n c.
Proof.
  unfold encloses_b, encloses. intros H.
  apply orb_true_iff in H. destruct H as [H | H].
  - left. apply Z.eqb_eq. exact H.
  - right. destruct (node_at t c) as [cn |]; [| discriminate].
    exists cn. split; [reflexivity | exact H].
Qed.

Lemma fitted_b_sound (d : nat) (t : cb2DynamicTree) :
  forall i, fitted_b d t i = true -> fitted t i.
Proof.
  induction d as [| d IH]; intros i H; simpl in H.
  - apply Z.eqb_eq in H. subst. constructor.
  - destruct (i =? cb2_nullNode) eqn:Hnull.
    + apply Z.eqb_eq in Hnull. subst. constructor.
    + apply Z.eqb_neq in Hnull. simpl in H.
      destruct (node_at t i) as [n |] eqn:Hn; [| discriminate].
      destruct (IsLeaf n) eqn:Hleaf.
      * exact (fitted_leaf t i n Hnull Hn Hleaf).
      * simpl in H. rewrite !andb_true_iff in H.
        destruct H as [[[H1 H2] H3] H4].
        apply (fitted_node t i n Hnull Hn Hleaf);
          auto using encloses_b_sound.
Qed.

(** C1: in a tree where the box of every live internal node contains the
    boxes of both of its children, [Query] with a callback that always
    returns true returns, and the callback is invoked exactly on the live
    leaves whose stored box overlaps the query box; when no live leaf
    overlaps the query box there is no invocation. *)
Theorem Query_visits_overlapping_leaves {S : Type}
    (callback : QueryVisitor S) (t : cb2DynamicTree) (box : cb2AABB) (s : S) :
  (forall s0 i, fst (callback s0 i) = true) ->
  fitted t (m_root t) ->
  exists turns s' calls,
    (forall fuel,
       (turns <= fuel)%nat ->
       Query fuel (logQuery callback) t box (s, [])
       = Returned (t, (s', calls))) /\
    (forall x,
       In x (map fst calls) <-> live_leaf t x /\ overlaps t x box) /\
    ((forall x, live_leaf t x -> ~ overlaps t x box) -> calls = []).
Proof.
  intros Hgo Hfit.
  destruct (Query_loop_subtree callback t box Hgo (m_root t) Hfit [] s [])
    as (k & s' & calls & Hrun & Hcalls).
  exists (k + 1)%nat, s', calls. split; [| split].
  - intros fuel Hfuel. unfold Query.
    replace fuel with (k + Datatypes.S (fuel - k - 1))%nat by lia.
    rewrite Hrun. reflexivity.
  - exact Hcalls.
  - intros Hnone. destruct calls as [| c calls]; [reflexivity |].
    exfalso. destruct (proj1 (Hcalls (fst c))) as [Hlive Hov].
    + left; reflexivity.
    + exact (Hnone _ Hlive Hov).
Qed.

Lemma Query_visits_overlapping_leaves_witness :
  exists turns s' calls,
    (forall fuel,
       (turns <= fuel)%nat ->
       Query fuel (logQuery accept_all) sample_tree (box 0 0 2 2) (tt, [])
       = Returned (sample_tree, (s', calls))) /\
    (forall x,
       In x (map fst calls) <->
       live_leaf sample_tree x /\ overlaps sample_tree x (box 0 0 2 2)) /\
    ((forall x,
        live_leaf sample_tree x -> ~ overlaps sample_tree x (box 0 0 2 2)) ->
     calls = []).
Proof.
  apply (Query_visits_overlapping_leaves accept_all sample_tree
           (box 0 0 2 2) tt).
  - reflexivity.
  - apply (fitted_b_sound 3). reflexivity.
Defined.

(** * Further properties of the traversals *)

(** ** Query against the recursive walk *)

(** The turns spent on the index on top of the stack: the callbacks made
    are a first part of what the recursive walk reports below that index;
    either all of it, and the loop goes on with the rest of the stack, or
    the last callback returned false and the call has returned. *)
Lemma Query_loop_rec {S : Type} (callback : QueryVisitor S)
    (t : cb2DynamicTree) (box : cb2AABB) (d : nat) :
  forall i l,
    Query_rec d t box i = Some l ->
    forall stack s log,
    exists turns s' calls rest,
      l = map fst calls ++ rest /\
      Forall (fun c => exists s0, snd c = fst (callback s0 (fst c))) calls /\
      if forallb snd calls then
        rest = [] /\
        forall fuel,
          Query_loop (turns + fuel) (logQuery callback) t box (i :: stack)
            (s, log)
          = Query_loop fuel (logQuery callback) t box stack (s', log ++ calls)
      else
        forall fuel,
          Query_loop (turns + fuel) (logQuery callback) t box (i :: stack)
            (s, log)
          = Returned (t, (s', log ++ calls)).
Proof.
  induction d as [| d IH]; intros i l Hl stack s log; simpl in Hl.
  - destruct (i =? cb2_nullNode) eqn:Hnull; [| discriminate].
    injection Hl as <-. exists 1%nat, s, [], []. split; [reflexivity |].
    split; [constructor |].
    simpl. split; [reflexivity |]. intros fuel.
    rewrite Hnull, app_nil_r. reflexivity.
  - destruct (i =? cb2_nullNode) eqn:Hnull.
    { injection Hl as <-. exists 1%nat, s, [], []. split; [reflexivity |].
      split; [constructor |].
      simpl. split; [reflexivity |]. intros fuel.
      rewrite Hnull, app_nil_r. reflexivity. }
    destruct (node_at t i) as [n |] eqn:Hn; [| discriminate].
    destruct (cb2TestOverlap (aabb n) box) eqn:Hov.
    2:{ injection Hl as <-. exists 1%nat, s, [], []. split; [reflexivity |].
        split; [constructor |].
        simpl. split; [reflexivity |]. intros fuel.
        rewrite Hnull, Hn, Hov, app_nil_r. reflexivity. }
    destruct (IsLeaf n) eqn:Hleaf.
    + injection Hl as <-.
      exists 1%nat, (snd (callback s i)), [(i, fst (callback s i))], [].
      split; [reflexivity |].
      split; [constructor; [exists s; reflexivity | constructor] |].
      simpl.
      destruct (fst (callback s i)) eqn:Hgo; simpl.
      * split; [reflexivity |]. intros fuel.
        rewrite Hnull, Hn, Hov, Hleaf. reflexivity.
      * intros fuel. rewrite Hnull, Hn, Hov, Hleaf. reflexivity.
    + destruct (Query_rec d t box (child2 n)) as [l2 |] eqn:H2;
        [| discriminate].
      destruct (Query_rec d t box (child1 n)) as [l1 |] eqn:H1;
        [| discriminate].
      injection Hl as <-.
      destruct (IH _ _ H2 (child1 n :: stack) s log)
        as (k2 & s2 & calls2 & rest2 & E2 & F2 & R2).
      destruct (forallb snd calls2) eqn:A2.
      * destruct R2 as [-> R2]. rewrite app_nil_r in E2.
        destruct (IH _ _ H1 stack s2 (log ++ calls2))
          as (k1 & s1 & calls1 & rest1 & E1 & F1 & R1).
        exists (Datatypes.S (k2 + k1)), s1, (calls2 ++ calls1), rest1.
        split.
        { rewrite map_app, <- app_assoc, E2, E1. reflexivity. }
        split; [apply Forall_app; split; assumption |].
        rewrite forallb_app, A2. cbn [andb].
        destruct (forallb snd calls1).
        -- destruct R1 as [-> R1]. split; [reflexivity |]. intros fuel.
           replace (Datatypes.S (k2 + k1) + fuel)%nat
             with (Datatypes.S (k2 + (k1 + fuel))) by lia.
           rewrite Query_loop_step, Hnull, Hn, Hov, Hleaf.
           rewrite R2, R1, app_assoc. reflexivity.
        -- intros fuel.
           replace (Datatypes.S (k2 + k1) + fuel)%nat
             with (Datatypes.S (k2 + (k1 + fuel))) by lia.
           rewrite Query_loop_step, Hnull, Hn, Hov, Hleaf.
           rewrite R2, R1, app_assoc. reflexivity.
      * exists (Datatypes.S k2), s2, calls2, (rest2 ++ l1). split.
        { rewrite E2, <- app_assoc. reflexivity. }
        split; [exact F2 |].
        rewrite A2. intros fuel. simpl Nat.add.
        rewrite Query_loop_step, Hnull, Hn, Hov, Hleaf. apply R2.
Qed.

(** X1: on a pool where the recursive walk pruned at [box] is defined, the
    loop of [Query] returns for every visitor, and the node indices passed
    to the callback are, in order, a first part of what the recursive walk
    (child2 before child1) reports; they are all of it when no callback
    returned false. *)
Theorem Query_follows_recursive_walk {S : Type} (callback : QueryVisitor S)
    (t : cb2DynamicTree) (box : cb2AABB) (s : S) (d : nat) (l : list Z) :
  Query_rec d t box (m_root t) = Some l ->
  exists turns s' calls rest,
    (forall fuel,
       (turns <= fuel)%nat ->
       Query fuel (logQuery callback) t box (s, [])
       = Returned (t, (s', calls))) /\
    l = map fst calls ++ rest /\
    (forallb snd calls = true -> rest = []).
Proof.
  intros Hl.
  destruct (Query_loop_rec callback t box d _ _ Hl [] s [])
    as (k & s' & calls & rest & E & _ & R).
  destruct (forallb snd calls) eqn:A.
  - destruct R as [-> R].
    exists (k + 1)%nat, s', calls, []. split; [| split].
    + intros fuel Hfuel. unfold Query.
      replace fuel with (k + Datatypes.S (fuel - k - 1))%nat by lia.
      rewrite R. reflexivity.
    + exact E.
    + reflexivity.
  - exists k, s', calls, rest. split; [| split].
    + intros fuel Hfuel. unfold Query.
      replace fuel with (k + (fuel - k))%nat by lia.
      rewrite R. reflexivity.
    + exact E.
    + intros H. congruence.
Qed.

Lemma Query_follows_recursive_walk_witness :
  exists turns s' calls rest,
    (forall fuel,
       (turns <= fuel)%nat ->
       Query fuel (logQuery stop_at_first) sample_tree (box 0 0 2 2) (tt, [])
       = Returned (sample_tree, (s', calls))) /\
    [2; 3] = map fst calls ++ rest /\
    (forallb snd calls = true -> rest = []).
Proof.
  apply (Query_follows_recursive_walk stop_at_first sample_tree
           (box 0 0 2 2) tt 3 [2; 3]).
  reflexivity.
Defined.

(** ** Query on a fitted tree, as a sequence *)

Lemma leaves_leaf_under (t : cb2DynamicTree) (d : nat) :
  forall i ls x, leaves d t i = Some ls -> In x ls -> leaf_under t i x.
Proof.
  induction d as [| d IH]; intros i ls x Hls Hx; simpl in Hls.
  - destruct (i =? cb2_nullNode); [| discriminate].
    injection Hls as <-. destruct Hx.
  - destruct (i =? cb2_nullNode) eqn:Hnull.
    { injection Hls as <-. destruct Hx. }
    apply Z.eqb_neq in Hnull.
    destruct (node_at t i) as [n |] eqn:Hn; [| discriminate].
    destruct (IsLeaf n) eqn:Hleaf.
    + injection Hls as <-. destruct Hx as [<- | []].
      exact (leaf_here t i n Hnull Hn Hleaf).
    + destruct (leaves d t (child2 n)) as [l2 |] eqn:H2; [| discriminate].
      destruct (leaves d t (child1 n)) as [l1 |] eqn:H1; [| discriminate].
      injection Hls as <-. apply in_app_iff in Hx. destruct Hx as [Hx | Hx].
      * exact (leaf_child2 t i n x Hnull Hn Hleaf (IH _ _ _ H2 Hx)).
      * exact (leaf_child1 t i n x Hnull Hn Hleaf (IH _ _ _ H1 Hx)).
Qed.

Lemma leaf_under_is_leaf (t : cb2DynamicTree) (i x : Z) :
  leaf_under t i x -> is_leaf_index t x.
Proof.
  induction 1 as [i n _ Hn Hleaf | |]; [| assumption | assumption].
  exists n. split; assumption.
Qed.

Lemma filter_none {A : Type} (f : A -> bool) (l : list A) :
  (forall x, In x l -> f x = false) -> filter f l = [].
Proof.
  induction l as [| a l IH]; intros H; simpl; [reflexivity |].
  rewrite (H a (or_introl eq_refl)). apply IH.
  intros x Hx. apply H. right; exact Hx.
Qed.

(** Below a fitted node whose box misses [box], no leaf overlaps [box]. *)
Lemma fitted_miss (t : cb2DynamicTree) (box : cb2AABB) (i x : Z)
    (n : cb2TreeNode) :
  fitted t i -> node_at t i = Some n ->
  cb2TestOverlap (aabb n) box = false ->
  leaf_under t i x -> overlaps_b t box x = false.
Proof.
  intros Hfit Hn Hov Hx. unfold overlaps_b.
  destruct (leaf_under_is_leaf t i x Hx) as (nx & Hnx & _). rewrite Hnx.
  destruct (cb2TestOverlap (aabb nx) box) eqn:Hox; [| reflexivity].
  pose proof (fitted_covers t i x Hx n nx Hfit Hn Hnx) as Hcont.
  rewrite (overlap_of_contained _ _ _ Hcont Hox) in Hov. discriminate.
Qed.

Lemma fitted_children (t : cb2DynamicTree) (i : Z) (n : cb2TreeNode) :
  fitted t i -> i <> cb2_nullNode -> node_at t i = Some n ->
  IsLeaf n = false ->
  fitted t (child1 n) /\ fitted t (child2 n).
Proof.
  intros Hfit Hnull Hn Hleaf.
  inversion Hfit as [| j m _ Hm Hl | j m _ Hm Hl He1 He2 Hf1 Hf2]; subst.
  - congruence.
  - congruence.
  - assert (m = n) by congruence. subst m. split; assumption.
Qed.

(** On a fitted tree the pruned walk reports the leaves whose box overlaps
    [box], in the order of the unpruned walk. *)
Lemma Query_rec_fitted (t : cb2DynamicTree) (box : cb2AABB) (d : nat) :
  forall i ls,
    fitted t i -> leaves d t i = Some ls ->
    Query_rec d t box i = Some (filter (overlaps_b t box) ls).
Proof.
  induction d as [| d IH]; intros i ls Hfit Hls; simpl in Hls |- *.
  - destruct (i =? cb2_nullNode); [| discriminate].
    injection Hls as <-. reflexivity.
  - destruct (i =? cb2_nullNode) eqn:Hnull.
    { injection Hls as <-. reflexivity. }
    apply Z.eqb_neq in Hnull.
    destruct (node_at t i) as [n |] eqn:Hn; [| discriminate].
    destruct (cb2TestOverlap (aabb n) box) eqn:Hov.
    + destruct (IsLeaf n) eqn:Hleaf.
      * injection Hls as <-. simpl. unfold overlaps_b. rewrite Hn, Hov.
        reflexivity.
      * destruct (fitted_children t i n Hfit Hnull Hn Hleaf) as [Hf1 Hf2].
        destruct (leaves d t (child2 n)) as [l2 |] eqn:H2; [| discriminate].
        destruct (leaves d t (child1 n)) as [l1 |] eqn:H1; [| discriminate].
        injection Hls as <-.
        rewrite (IH _ _ Hf2 H2), (IH _ _ Hf1 H1), filter_app. reflexivity.
    + assert (Hall : leaves (Datatypes.S d) t i = Some ls).
      { simpl. apply Z.eqb_neq in Hnull. rewrite Hnull, Hn. exact Hls. }
      rewrite filter_none; [reflexivity |].
      intros x Hx.
      exact (fitted_miss t box i x n Hfit Hn Hov
               (leaves_leaf_under t _ i ls x Hall Hx)).
Qed.

(** X2: on a tree whose boxes contain their children's boxes, [Query] with
    a callback that always returns true passes to the callback, in the
    order of the depth-first walk that takes child2 before child1, each
    leaf whose box overlaps the query box, as often as the leaf occurs in
    the walk. *)
Theorem Query_reports_filtered_leaves {S : Type} (callback : QueryVisitor S)
    (t : cb2DynamicTree) (box : cb2AABB) (s : S) (d : nat) (ls : list Z) :
  (forall s0 i, fst (callback s0 i) = true) ->
  fitted t (m_root t) ->
  leaves d t (m_root t) = Some ls ->
  exists turns s' calls,
    (forall fuel,
       (turns <= fuel)%nat ->
       Query fuel (logQuery callback) t box (s, [])
       = Returned (t, (s', calls))) /\
    map fst calls = filter (overlaps_b t box) ls.
Proof.
  intros Hgo Hfit Hls.
  pose proof (Query_rec_fitted t box d _ _ Hfit Hls) as Hrec.
  destruct (Query_loop_rec callback t box d _ _ Hrec [] s [])
    as (k & s' & calls & rest & E & F & R).
  assert (A : forallb snd calls = true).
  { apply forallb_forall. intros c Hc. rewrite Forall_forall in F.
    destruct (F c Hc) as (s0 & ->). apply Hgo. }
  rewrite A in R. destruct R as [-> R]. rewrite app_nil_r in E.
  exists (k + 1)%nat, s', calls. split.
  - intros fuel Hfuel. unfold Query.
    replace fuel with (k + Datatypes.S (fuel - k - 1))%nat by lia.
    rewrite R. reflexivity.
  - symmetry. exact E.
Qed.

Lemma Query_reports_filtered_leaves_witness :
  exists turns s' calls,
    (forall fuel,
       (turns <= fuel)%nat ->
       Query fuel (logQuery accept_all) sample_tree (box 0 0 2 2) (tt, [])
       = Returned (sample_tree, (s', calls))) /\
    map fst calls = filter (overlaps_b sample_tree (box 0 0 2 2)) [2; 3; 4].
Proof.
  apply (Query_reports_filtered_leaves accept_all sample_tree
           (box 0 0 2 2) tt 3 [2; 3; 4]).
  - reflexivity.
  - apply (fitted_b_sound 3). reflexivity.
  - reflexivity.
Defined.

(** ** RayCast on a finite tree *)

Lemma subseq_nil_l {A : Type} (l : list A) : subseq [] l.
Proof. induction l; constructor; assumption. Qed.

Lemma subseq_refl {A : Type} (l : list A) : subseq l l.
Proof. induction l; constructor; assumption. Qed.

Lemma subseq_app {A : Type} (a b c e : list A) :
  subseq a b -> subseq c e -> subseq (a ++ c) (b ++ e).
Proof.
  intros Hab Hce. induction Hab as [| x l1 l2 _ IH | x l1 l2 _ IH]; simpl.
  - exact Hce.
  - apply subseq_skip. exact IH.
  - apply subseq_take. exact IH.
Qed.

Lemma subseq_In {A : Type} (a b : list A) (x : A) :
  subseq a b -> In x a -> In x b.
Proof.
  induction 1; simpl; intros Hx; auto.
  destruct Hx; auto.
Qed.

Lemma RayCast_loop_step {S : Type} (ar : FloatArith)
    (callback : RayCastVisitor S)
    (t : cb2DynamicTree) (input : cb2RayCastInput) (v abs_v : Vec2)
    (fuel : nat) (nodeId : Z) (stack : list Z) (f : Q) (seg : cb2AABB)
    (s : S) :
  RayCast_loop ar (Datatypes.S fuel) callback t input v abs_v (nodeId :: stack)
    f seg s =
  if nodeId =? cb2_nullNode then
    RayCast_loop ar fuel callback t input v abs_v stack f seg s
  else
    match node_at t nodeId with
    | None => OutOfBounds
    | Some node =>
      if negb (cb2TestOverlap (aabb node) seg) then
        RayCast_loop ar fuel callback t input v abs_v stack f seg s
      else if Qltb 0 (separation ar v abs_v (p1 input) (aabb node)) then
        RayCast_loop ar fuel callback t input v abs_v stack f seg s
      else if IsLeaf node then
        let r := callback s (mkRayCastInput (p1 input) (p2 input) f) nodeId in
        if Qeq_bool (fst r) 0 then Returned (t, snd r)
        else if Qltb 0 (fst r) then
          RayCast_loop ar fuel callback t input v abs_v stack (fst r)
            (segment_box ar (p1 input) (p2 input) (fst r)) (snd r)
        else RayCast_loop ar fuel callback t input v abs_v stack f seg (snd r)
      else
        RayCast_loop ar fuel callback t input v abs_v
          (child2 node :: child1 node :: stack) f seg s
    end.
Proof. reflexivity. Qed.

(** Whether a recorded callback returned zero. *)
Lemma clipped_fraction_one (m : Q) (c : RayCall) :
  clipped_fraction m [c] = clip m (rc_value c).
Proof. reflexivity. Qed.

(** The turns spent on the index on top of the stack, for any visitor: the
    callbacks made are on leaves below that index, in the order of the
    walk; either one of them returned zero and the call has returned, or
    the loop goes on with the rest of the stack and the max fraction the
    callbacks leave. *)
Lemma RayCast_loop_leaves {S : Type} (ar : FloatArith)
    (callback : RayCastVisitor S)
    (t : cb2DynamicTree) (input : cb2RayCastInput) (v abs_v : Vec2)
    (d : nat) :
  forall i ls,
    leaves d t i = Some ls ->
    forall stack m s log,
    exists turns s' calls,
      subseq (map rc_node calls) ls /\
      if existsb (fun c => Qeq_bool (rc_value c) 0) calls then
        forall fuel,
          RayCast_loop ar (turns + fuel) (logRay callback) t input v abs_v
            (i :: stack) m (segment_box ar (p1 input) (p2 input) m) (s, log)
          = Returned (t, (s', log ++ calls))
      else
        forall fuel,
          RayCast_loop ar (turns + fuel) (logRay callback) t input v abs_v
            (i :: stack) m (segment_box ar (p1 input) (p2 input) m) (s, log)
          = RayCast_loop ar fuel (logRay callback) t input v abs_v stack
              (clipped_fraction m calls)
              (segment_box ar (p1 input) (p2 input) (clipped_fraction m calls))
              (s', log ++ calls).
Proof.
  induction d as [| d IH]; intros i ls Hls stack m s log; simpl in Hls.
  - destruct (i =? cb2_nullNode) eqn:Hnull; [| discriminate].
    injection Hls as <-. exists 1%nat, s, []. split; [constructor |].
    cbn [existsb]. intros fuel. simpl Nat.add.
    rewrite RayCast_loop_step, Hnull, app_nil_r. reflexivity.
  - destruct (i =? cb2_nullNode) eqn:Hnull.
    { injection Hls as <-. exists 1%nat, s, []. split; [constructor |].
      cbn [existsb]. intros fuel. simpl Nat.add.
      rewrite RayCast_loop_step, Hnull, app_nil_r. reflexivity. }
    destruct (node_at t i) as [n |] eqn:Hn; [| discriminate].
    destruct (cb2TestOverlap (aabb n) (segment_box ar (p1 input) (p2 input) m))
      eqn:Hov.
    2:{ exists 1%nat, s, []. split; [apply subseq_nil_l |].
        cbn [existsb]. intros fuel. simpl Nat.add.
        rewrite RayCast_loop_step, Hnull, Hn, Hov, app_nil_r. reflexivity. }
    destruct (Qltb 0 (separation ar v abs_v (p1 input) (aabb n))) eqn:Hsep.
    { exists 1%nat, s, []. split; [apply subseq_nil_l |].
      cbn [existsb]. intros fuel. simpl Nat.add.
      rewrite RayCast_loop_step, Hnull, Hn, Hov, Hsep, app_nil_r.
      reflexivity. }
    destruct (IsLeaf n) eqn:Hleaf.
    + injection Hls as <-.
      set (sub := mkRayCastInput (p1 input) (p2 input) m).
      exists 1%nat, (snd (callback s sub i)),
        [mkRayCall sub i (fst (callback s sub i))].
      split; [apply subseq_refl |].
      cbn [existsb rc_value orb].
      destruct (Qeq_bool (fst (callback s sub i)) 0) eqn:Hzero; cbn [orb].
      * intros fuel. simpl Nat.add.
        rewrite RayCast_loop_step, Hnull, Hn, Hov, Hsep, Hleaf.
        cbn [negb]. unfold logRay; cbn [fst snd]. fold sub.
        rewrite Hzero. reflexivity.
      * intros fuel. simpl Nat.add.
        rewrite RayCast_loop_step, Hnull, Hn, Hov, Hsep, Hleaf.
        cbn [negb]. unfold logRay; cbn [fst snd]. fold sub.
        rewrite Hzero, clipped_fraction_one. unfold clip. cbn [rc_value].
        destruct (Qltb 0 (fst (callback s sub i))); reflexivity.
    + destruct (leaves d t (child2 n)) as [l2 |] eqn:H2; [| discriminate].
      destruct (leaves d t (child1 n)) as [l1 |] eqn:H1; [| discriminate].
      injection Hls as <-.
      destruct (IH _ _ H2 (child1 n :: stack) m s log)
        as (k2 & s2 & calls2 & Q2 & R2).
      destruct (existsb (fun c => Qeq_bool (rc_value c) 0) calls2) eqn:Z2.
      * exists (Datatypes.S k2), s2, calls2. split.
        { rewrite <- (app_nil_r (map rc_node calls2)).
          apply subseq_app; [exact Q2 | apply subseq_nil_l]. }
        rewrite Z2. intros fuel. simpl Nat.add.
        rewrite RayCast_loop_step, Hnull, Hn, Hov, Hsep, Hleaf.
        cbn [negb]. apply R2.
      * destruct (IH _ _ H1 stack (clipped_fraction m calls2) s2
                    (log ++ calls2))
          as (k1 & s1 & calls1 & Q1 & R1).
        exists (Datatypes.S (k2 + k1)), s1, (calls2 ++ calls1). split.
        { rewrite map_app. apply subseq_app; assumption. }
        rewrite existsb_app, Z2. cbn [orb].
        destruct (existsb (fun c => Qeq_bool (rc_value c) 0) calls1).
        -- intros fuel.
           replace (Datatypes.S (k2 + k1) + fuel)%nat
             with (Datatypes.S (k2 + (k1 + fuel))) by lia.
           rewrite RayCast_loop_step, Hnull, Hn, Hov, Hsep, Hleaf.
           cbn [negb]. rewrite R2, R1, app_assoc. reflexivity.
        -- intros fuel.
           replace (Datatypes.S (k2 + k1) + fuel)%nat
             with (Datatypes.S (k2 + (k1 + fuel))) by lia.
           rewrite RayCast_loop_step, Hnull, Hn, Hov, Hsep, Hleaf.
           cbn [negb]. rewrite R2, R1, app_assoc, clipped_fraction_app.
           reflexivity.
Qed.

(** X3: on a pool that holds a finite tree, [RayCast] returns for every
    visitor and every ray that passes the assertion, and the node indices
    passed to the callback are leaves of the tree, in the order of the
    depth-first walk that takes child2 before child1, each at most as often
    as it occurs in the walk. *)
Theorem RayCast_reports_subsequence {S : Type} (ar : FloatArith)
    (normalize : Vec2 -> Vec2)
    (callback : RayCastVisitor S) (t : cb2DynamicTree)
    (input : cb2RayCastInput) (s : S) (d : nat) (ls : list Z) :
  (0 < lengthSquared (vsub (p2 input) (p1 input)))%Q ->
  leaves d t (m_root t) = Some ls ->
  exists turns s' calls,
    (forall fuel,
       (turns <= fuel)%nat ->
       RayCast ar normalize fuel (logRay callback) t input (s, [])
       = Returned (t, (s', calls))) /\
    subseq (map rc_node calls) ls.
Proof.
  intros Hlen Hls. apply Qltb_true in Hlen.
  set (v := cb2Cross 1 (normalize (vsub (p2 input) (p1 input)))).
  destruct (RayCast_loop_leaves ar callback t input v (cb2Abs v) d _ _ Hls
              [] (maxFraction input) s [])
    as (k & s' & calls & Hsub & R).
  destruct (existsb (fun c => Qeq_bool (rc_value c) 0) calls).
  - exists k, s', calls. split; [| exact Hsub].
    intros fuel Hfuel. unfold RayCast. rewrite Hlen. fold v.
    replace fuel with (k + (fuel - k))%nat by lia. apply R.
  - exists (k + 1)%nat, s', calls. split; [| exact Hsub].
    intros fuel Hfuel. unfold RayCast. rewrite Hlen. fold v.
    replace fuel with (k + Datatypes.S (fuel - k - 1))%nat by lia.
    rewrite R. reflexivity.
Qed.

Lemma RayCast_reports_subsequence_witness :
  exists turns s' calls,
    (forall fuel,
       (turns <= fuel)%nat ->
       RayCast float32 normalize_axis fuel (logRay clip_then_stop) sample_tree
         sample_ray (tt, [])
       = Returned (sample_tree, (s', calls))) /\
    subseq (map rc_node calls) [2; 3; 4].
Proof.
  apply (RayCast_reports_subsequence float32 normalize_axis clip_then_stop
           sample_tree sample_ray tt 3 [2; 3; 4]).
  - reflexivity.
  - reflexivity.
Defined.

(** ** The accessors on what the callbacks receive *)

Lemma node_at_in_range (t : cb2DynamicTree) (i : Z) (n : cb2TreeNode) :
  node_at t i = Some n -> 0 <= i < Z.of_nat (length (m_nodes t)).
Proof.
  unfold node_at. destruct (0 <=? i) eqn:E; [| discriminate].
  intros H. apply Z.leb_le in E.
  assert (Hlt : (Z.to_nat i < length (m_nodes t))%nat).
  { apply nth_error_Some. congruence. }
  lia.
Qed.

Lemma accessors_on_node (t : cb2DynamicTree) (i : Z) (n : cb2TreeNode) :
  Z.of_nat (length (m_nodes t)) <= m_nodeCapacity t ->
  node_at t i = Some n ->
  GetUserData t i = Returned (userData n) /\
  GetFatAABB t i = Returned (aabb n).
Proof.
  intros Hcap Hn. pose proof (node_at_in_range t i n Hn) as Hr.
  unfold GetUserData, GetFatAABB.
  rewrite (range_check_passes t i), Hn by lia. split; reflexivity.
Qed.

(** X5: when the capacity recorded in the tree covers the node array, each
    node index that [Query] or [RayCast] passes to a callback is accepted
    by [GetUserData] and [GetFatAABB], which return the user data and the
    box of the node at that index, and that node is a leaf; for [Query]
    that box overlaps the query box. *)
Theorem callback_ids_are_readable {S : Type} (ar : FloatArith)
    (normalize : Vec2 -> Vec2)
    (fuel : nat) (qcallback : QueryVisitor S) (rcallback : RayCastVisitor S)
    (t : cb2DynamicTree) (box : cb2AABB) (input : cb2RayCastInput) (s : S) :
  Z.of_nat (length (m_nodes t)) <= m_nodeCapacity t ->
  (forall t' s' log c,
     Query fuel (logQuery qcallback) t box (s, [])
     = Returned (t', (s', log)) ->
     In c log ->
     exists n,
       node_at t (fst c) = Some n /\
       GetUserData t (fst c) = Returned (userData n) /\
       GetFatAABB t (fst c) = Returned (aabb n) /\
       IsLeaf n = true /\ cb2TestOverlap (aabb n) box = true) /\
  (forall t' s' log c,
     RayCast ar normalize fuel (logRay rcallback) t input (s, [])
     = Returned (t', (s', log)) ->
     In c log ->
     exists n,
       node_at t (rc_node c) = Some n /\
       GetUserData t (rc_node c) = Returned (userData n) /\
       GetFatAABB t (rc_node c) = Returned (aabb n) /\
       IsLeaf n = true).
Proof.
  intros Hcap. split.
  - intros t' s' log c H Hc. unfold Query in H.
    apply Query_loop_calls in H. destruct H as (calls & Hlog & Hall & _).
    simpl in Hlog. subst calls. rewrite Forall_forall in Hall.
    destruct (Hall c Hc) as [(n & Hn & Hleaf) (n' & Hn' & Hov)].
    assert (n' = n) by congruence. subst n'.
    destruct (accessors_on_node t (fst c) n Hcap Hn) as [H1 H2].
    exists n. auto.
  - intros t' s' log c H Hc.
    apply RayCast_calls in H. destruct H as (v & abs_v & Hok).
    apply in_split in Hc. destruct Hc as (pre & post & ->).
    apply ray_calls_ok_suffix in Hok. simpl in Hok.
    destruct Hok as (_ & (n & Hn & Hleaf & _) & _).
    destruct (accessors_on_node t (rc_node c) n Hcap Hn) as [H1 H2].
    exists n. auto.
Qed.

Lemma callback_ids_are_readable_witness :
  exists n,
    node_at sample_tree 3 = Some n /\
    GetUserData sample_tree 3 = Returned (userData n) /\
    GetFatAABB sample_tree 3 = Returned (aabb n) /\
    IsLeaf n = true /\ cb2TestOverlap (aabb n) (box 0 0 2 2) = true.
Proof.
  apply (proj1 (callback_ids_are_readable float32 normalize_axis 20 accept_all
                  ignore_all sample_tree (box 0 0 2 2) sample_ray tt
                  ltac:(simpl; lia))
           sample_tree tt [(2, true); (3, true)] (3, true)).
  - reflexivity.
  - simpl. tauto.
Defined.

(** * Contacts *)

(** ** Flags *)

Lemma land_lor_same (f t : Z) : Z.land (Z.lor f t) t = t.
Proof.
  apply Z.bits_inj'. intros k Hk.
  rewrite Z.land_spec, Z.lor_spec.
  destruct (Z.testbit f k), (Z.testbit t k); reflexivity.
Qed.

Lemma land_clear_same (f t : Z) : Z.land (Z.land f (Z.lnot t)) t = 0.
Proof.
  apply Z.bits_inj'. intros k Hk.
  rewrite !Z.land_spec, Z.lnot_spec, Z.bits_0 by exact Hk.
  destruct (Z.testbit f k), (Z.testbit t k); reflexivity.
Qed.

Lemma disjoint_bits (e t : Z) (k : Z) :
  Z.land e t = 0 -> Z.testbit e k && Z.testbit t k = false.
Proof.
  intros H. rewrite <- Z.land_spec, H. apply Z.bits_0.
Qed.

Lemma land_lor_other (f e t : Z) :
  Z.land e t = 0 -> Z.land (Z.lor f e) t = Z.land f t.
Proof.
  intros H. apply Z.bits_inj'. intros k Hk.
  rewrite !Z.land_spec, Z.lor_spec.
  pose proof (disjoint_bits e t k H) as D.
  destruct (Z.testbit f k), (Z.testbit e k), (Z.testbit t k);
    try reflexivity; discriminate.
Qed.

Lemma enabled_kept_on_set (f e t : Z) :
  Z.land (Z.lor (Z.lor f e) t) e = e.
Proof.
  apply Z.bits_inj'. intros k Hk.
  rewrite Z.land_spec, !Z.lor_spec.
  destruct (Z.testbit f k), (Z.testbit e k), (Z.testbit t k); reflexivity.
Qed.

Lemma enabled_kept_on_clear (f e t : Z) :
  Z.land e t = 0 -> Z.land (Z.land (Z.lor f e) (Z.lnot t)) e = e.
Proof.
  intros H. apply Z.bits_inj'. intros k Hk.
  rewrite !Z.land_spec, Z.lor_spec, Z.lnot_spec by exact Hk.
  pose proof (disjoint_bits e t k H) as D.
  destruct (Z.testbit f k), (Z.testbit e k), (Z.testbit t k);
    try reflexivity; discriminate.
Qed.

(** The flags [Update_finish] leaves. *)
Lemma Update_finish_flags (env : ContactEnv) (listener : bool)
    (c : cb2Contact) (old : cb2Manifold) (was sensor touching : bool)
    (m : cb2Manifold) (events : list ContactEvent) :
  flags_ok env ->
  let c' := fst (Update_finish env listener c old
                   (Z.lor (m_flags c) (e_enabledFlag env)) was sensor
                   touching m events) in
  enabled_flag_set env c' = true /\
  touching_flag_set env c' = touching /\
  (forall k,
     0 <= k ->
     Z.testbit (e_enabledFlag env) k = false ->
     Z.testbit (e_touchingFlag env) k = false ->
     Z.testbit (m_flags c') k = Z.testbit (m_flags c) k) /\
  m_manifold c' = m /\
  c' = with_flags_manifold c (m_flags c') m.
Proof.
  intros [Ht Hd] c'. subst c'.
  unfold Update_finish, enabled_flag_set, touching_flag_set; simpl.
  destruct touching.
  - rewrite enabled_kept_on_set, land_lor_same, !Z.eqb_refl.
    repeat split.
    intros k Hk He Hk'. rewrite !Z.lor_spec, He, Hk'.
    destruct (Z.testbit (m_flags c) k); reflexivity.
  - rewrite (enabled_kept_on_clear _ _ _ Hd), land_clear_same, Z.eqb_refl.
    repeat split.
    + apply Z.eqb_neq. congruence.
    + intros k Hk He Hk'.
      rewrite Z.land_spec, Z.lor_spec, Z.lnot_spec, He, Hk' by exact Hk.
      destruct (Z.testbit (m_flags c) k); reflexivity.
Qed.

Lemma wasTouching_is_flag (env : ContactEnv) (c : cb2Contact) :
  flags_ok env ->
  (Z.land (Z.lor (m_flags c) (e_enabledFlag env)) (e_touchingFlag env)
   =? e_touchingFlag env) = touching_flag_set env c.
Proof.
  intros [_ Hd]. unfold touching_flag_set.
  rewrite (land_lor_other _ _ _ Hd). reflexivity.
Qed.

(** ** The warm start of the manifold *)

Lemma set_nth_length {A : Type} (a : A) (l : list A) :
  forall i, length (set_nth i a l) = length l.
Proof.
  induction l as [| x l IH]; intros [| i]; simpl; auto.
Qed.

Lemma nth_error_set_nth {A : Type} (a : A) (l : list A) :
  forall i k,
    nth_error (set_nth i a l) k =
    if (k =? i)%nat then option_map (fun _ => a) (nth_error l k)
    else nth_error l k.
Proof.
  induction l as [| x l IH]; intros i k.
  - destruct i, k; simpl; try reflexivity.
    destruct (k =? i)%nat; reflexivity.
  - destruct i as [| i], k as [| k]; simpl; try reflexivity. apply IH.
Qed.

Lemma skipn_cons_nth {A : Type} (l : list A) :
  forall j a, nth_error l j = Some a -> skipn j l = a :: skipn (Datatypes.S j) l.
Proof.
  induction l as [| x l IH]; intros [| j] a H; simpl in *; try discriminate.
  - congruence.
  - apply IH. exact H.
Qed.

Lemma match_old_spec (old : cb2Manifold) (mp2 : cb2ManifoldPoint) :
  forall count j,
    (j + count <= length (points old))%nat ->
    match_old count j old mp2 =
    Returned
      match find (fun mp1 => id_key mp1 =? id_key mp2)
              (firstn count (skipn j (points old))) with
      | Some mp1 => copy_impulses mp1 mp2
      | None => mp2
      end.
Proof.
  induction count as [| count IH]; intros j Hlen; simpl.
  - reflexivity.
  - destruct (nth_error (points old) j) as [mp1 |] eqn:Hj.
    + rewrite (skipn_cons_nth _ _ _ Hj). simpl.
      destruct (id_key mp1 =? id_key mp2); [reflexivity |].
      apply IH. lia.
    + apply nth_error_None in Hj. lia.
Qed.

Lemma match_old_warm_started (old : cb2Manifold) (mp2 : cb2ManifoldPoint) :
  manifold_in_bounds old ->
  match_old (Z.to_nat (pointCount old)) 0 old (zero_impulses mp2)
  = Returned (warm_started old mp2).
Proof.
  intros Hb. unfold manifold_in_bounds in Hb.
  rewrite match_old_spec by (simpl; lia).
  unfold warm_started, old_point. simpl.
  destruct (find _ _); reflexivity.
Qed.

Lemma warm_start_spec (old : cb2Manifold) :
  manifold_in_bounds old ->
  forall count i m,
    (i + count <= length (points m))%nat ->
    exists m',
      warm_start count i old m = Returned m' /\
      pointCount m' = pointCount m /\
      forall k,
        nth_error (points m') k =
        if ((i <=? k) && (k <? i + count))%nat
        then option_map (warm_started old) (nth_error (points m) k)
        else nth_error (points m) k.
Proof.
  intros Hb. induction count as [| count IH]; intros i m Hlen.
  - exists m. split; [reflexivity |]. split; [reflexivity |].
    intros k. destruct (i <=? k)%nat eqn:E1; [| reflexivity].
    destruct (k <? i + 0)%nat eqn:E2; [| reflexivity].
    apply Nat.leb_le in E1. apply Nat.ltb_lt in E2. lia.
  - simpl. destruct (nth_error (points m) i) as [mp2 |] eqn:Hi.
    2:{ apply nth_error_None in Hi. lia. }
    rewrite (match_old_warm_started old mp2 Hb).
    set (m1 := mkManifold (set_nth i (warm_started old mp2) (points m))
                 (pointCount m)).
    destruct (IH (Datatypes.S i) m1) as (m' & Hrun & Hcount & Hpts).
    { simpl. rewrite set_nth_length. lia. }
    exists m'. split; [exact Hrun |]. split; [exact Hcount |].
    intros k. rewrite Hpts. unfold m1; cbn [points]. rewrite nth_error_set_nth.
    destruct (Nat.eq_dec k i) as [-> | Hne].
    + rewrite Nat.eqb_refl, Hi.
      replace (Datatypes.S i <=? i)%nat with false
        by (symmetry; apply Nat.leb_gt; lia).
      replace (i <=? i)%nat with true by (symmetry; apply Nat.leb_le; lia).
      replace (i <? i + Datatypes.S count)%nat with true
        by (symmetry; apply Nat.ltb_lt; lia).
      reflexivity.
    + replace (k =? i)%nat with false by (symmetry; apply Nat.eqb_neq; exact Hne).
      destruct (Datatypes.S i <=? k)%nat eqn:E1;
        destruct (k <? Datatypes.S i + count)%nat eqn:E2;
        destruct (i <=? k)%nat eqn:E3;
        destruct (k <? i + Datatypes.S count)%nat eqn:E4;
        try reflexivity; exfalso;
        repeat match goal with
               | H : (_ <=? _)%nat = true |- _ => apply Nat.leb_le in H
               | H : (_ <=? _)%nat = false |- _ => apply Nat.leb_gt in H
               | H : (_ <? _)%nat = true |- _ => apply Nat.ltb_lt in H
               | H : (_ <? _)%nat = false |- _ => apply Nat.ltb_ge in H
               end; lia.
Qed.

Lemma warm_start_pointCount (old : cb2Manifold) :
  forall count i m m',
    warm_start count i old m = Returned m' -> pointCount m' = pointCount m.
Proof.
  induction count as [| count IH]; intros i m m' H; simpl in H.
  - congruence.
  - destruct (nth_error (points m) i) as [mp2 |]; [| discriminate].
    destruct (match_old _ 0 old (zero_impulses mp2)) as [mp2' | | |];
      try discriminate.
    apply IH in H. exact H.
Qed.

Lemma warm_start_in_bounds (old : cb2Manifold) :
  forall count i m m',
    (i <= length (points m))%nat ->
    warm_start count i old m = Returned m' ->
    (i + count <= length (points m))%nat.
Proof.
  induction count as [| count IH]; intros i m m' Hi0 H; simpl in H.
  - lia.
  - destruct (nth_error (points m) i) as [mp2 |] eqn:Hi; [| discriminate].
    assert (Hlt : (i < length (points m))%nat).
    { apply nth_error_Some. congruence. }
    destruct (match_old _ 0 old (zero_impulses mp2)) as [mp2' | | |];
      try discriminate.
    apply IH in H; cbn [points] in *; rewrite set_nth_length in *; lia.
Qed.

(** ** Update *)

(** What a returning [Update] did, with the flag read as the contact holds
    it. *)
Lemma Update_returned (env : ContactEnv) (touchingShapes : bool)
    (Evaluate : cb2Manifold -> cb2Manifold) (listener : bool)
    (c c' : cb2Contact) (events : list ContactEvent) :
  flags_ok env ->
  Update env touchingShapes Evaluate listener c = Returned (c', events) ->
  let sensor := IsSensor env (m_fixtureA c) || IsSensor env (m_fixtureB c) in
  let was := touching_flag_set env c in
  exists touching m wake,
    (c', events)
    = Update_finish env listener c (m_manifold c)
        (Z.lor (m_flags c) (e_enabledFlag env)) was sensor touching m wake /\
    if sensor then
      touching = touchingShapes /\
      m = mkManifold (points (m_manifold c)) 0 /\ wake = []
    else
      touching = (0 <? pointCount m) /\
      warm_start (Z.to_nat (pointCount (Evaluate (m_manifold c)))) 0
        (m_manifold c) (Evaluate (m_manifold c)) = Returned m /\
      wake = if negb (Bool.eqb touching was)
             then [EvSetAwake (GetBody env (m_fixtureA c));
                   EvSetAwake (GetBody env (m_fixtureB c))]
             else [].
Proof.
  intros Hok H sensor was. unfold Update in H.
  rewrite (wasTouching_is_flag env c Hok) in H. fold sensor was in H.
  destruct sensor.
  - exists touchingShapes, (mkManifold (points (m_manifold c)) 0), [].
    split; [congruence |]. repeat split.
  - destruct (warm_start _ 0 (m_manifold c) (Evaluate (m_manifold c)))
      as [m' | | |] eqn:Hw; try discriminate.
    pose proof (warm_start_pointCount _ _ _ _ _ Hw) as Hcount.
    exists (0 <? pointCount (Evaluate (m_manifold c))), m',
      (if negb (Bool.eqb (0 <? pointCount (Evaluate (m_manifold c))) was)
       then [EvSetAwake (GetBody env (m_fixtureA c));
             EvSetAwake (GetBody env (m_fixtureB c))]
       else []).
    split; [congruence |]. rewrite Hcount. repeat split.
Qed.

(** X6: after a call of [Update] that returns, with flag constants that
    share no bit, the enabled flag is set; the touching flag is set exactly
    when, for a sensor contact, the shapes overlap, and otherwise when the
    manifold has a point; a sensor contact has no manifold point; no flag
    bit other than the two is changed, and nothing of the contact but flags
    and manifold. *)
Theorem Update_flags_follow_manifold (env : ContactEnv)
    (touchingShapes : bool) (Evaluate : cb2Manifold -> cb2Manifold)
    (listener : bool) (c c' : cb2Contact) (events : list ContactEvent) :
  flags_ok env ->
  Update env touchingShapes Evaluate listener c = Returned (c', events) ->
  let sensor := IsSensor env (m_fixtureA c) || IsSensor env (m_fixtureB c) in
  enabled_flag_set env c' = true /\
  touching_flag_set env c' =
    (if sensor then touchingShapes else 0 <? pointCount (m_manifold c')) /\
  (sensor = true ->
   pointCount (m_manifold c') = 0 /\
   points (m_manifold c') = points (m_manifold c)) /\
  (forall k,
     0 <= k ->
     Z.testbit (e_enabledFlag env) k = false ->
     Z.testbit (e_touchingFlag env) k = false ->
     Z.testbit (m_flags c') k = Z.testbit (m_flags c) k) /\
  c' = with_flags_manifold c (m_flags c') (m_manifold c').
Proof.
  intros Hok H sensor.
  destruct (Update_returned env _ _ _ _ _ _ Hok H)
    as (touching & m & wake & Hfin & Hcase).
  fold sensor in Hfin, Hcase.
  pose proof (Update_finish_flags env listener c (m_manifold c)
                (touching_flag_set env c) sensor touching m wake Hok)
    as Hflags.
  rewrite <- Hfin in Hflags. cbn [fst] in Hflags.
  destruct Hflags as (He & Ht & Hbits & Hm & Hc).
  split; [exact He |]. rewrite Ht, Hm.
  destruct sensor.
  - destruct Hcase as (-> & -> & _).
    split; [reflexivity |]. split; [intros _; split; reflexivity |].
    split; [exact Hbits |]. exact Hc.
  - destruct Hcase as (-> & _ & _).
    split; [reflexivity |]. split; [discriminate |].
    split; [exact Hbits |]. exact Hc.
Qed.

Lemma Update_flags_follow_manifold_witness :
  enabled_flag_set sample_env
    (with_flags_manifold touching_contact 4
       (mkManifold (points (m_manifold touching_contact)) 0)) = true.
Proof.
  apply (Update_flags_follow_manifold sample_env false evaluate_none true
           touching_contact
           (with_flags_manifold touching_contact 4
              (mkManifold (points (m_manifold touching_contact)) 0))
           [EvSetAwake 3; EvSetAwake 1; EvEndContact]).
  - split; [discriminate | reflexivity].
  - reflexivity.
Defined.

(** X7: the calls a returning [Update] makes are fixed by the touching flag
    before and after it: for a contact that is not a sensor, [SetAwake] on
    both bodies when the flag changed; then [BeginContact] when the flag
    went from clear to set, [EndContact] when it went from set to clear,
    and, for a contact that is not a sensor and is touching, [PreSolve]
    with the manifold the contact had on entry; the listener calls are made
    only with a listener, in that order. *)
Theorem Update_calls (env : ContactEnv) (touchingShapes : bool)
    (Evaluate : cb2Manifold -> cb2Manifold) (listener : bool)
    (c c' : cb2Contact) (events : list ContactEvent) :
  flags_ok env ->
  Update env touchingShapes Evaluate listener c = Returned (c', events) ->
  let sensor := IsSensor env (m_fixtureA c) || IsSensor env (m_fixtureB c) in
  let was := touching_flag_set env c in
  let now := touching_flag_set env c' in
  events =
    (if negb sensor && negb (Bool.eqb now was)
     then [EvSetAwake (GetBody env (m_fixtureA c));
           EvSetAwake (GetBody env (m_fixtureB c))]
     else [])
    ++ (if negb was && now && listener then [EvBeginContact] else [])
    ++ (if was && negb now && listener then [EvEndContact] else [])
    ++ (if negb sensor && now && listener
        then [EvPreSolve (m_manifold c)] else []).
Proof.
  intros Hok H sensor was now.
  destruct (Update_returned env _ _ _ _ _ _ Hok H)
    as (touching & m & wake & Hfin & Hcase).
  fold sensor was in Hfin, Hcase.
  pose proof (Update_finish_flags env listener c (m_manifold c)
                was sensor touching m wake Hok) as Hflags.
  rewrite <- Hfin in Hflags. cbn [fst] in Hflags.
  destruct Hflags as (_ & Ht & _). fold now in Ht.
  unfold Update_finish in Hfin. injection Hfin as _ ->.
  rewrite Ht.
  destruct sensor.
  - destruct Hcase as (_ & _ & ->). reflexivity.
  - destruct Hcase as (_ & _ & ->). reflexivity.
Qed.

Lemma Update_calls_witness :
  [EvSetAwake 3; EvSetAwake 1; EvEndContact]
  = [EvSetAwake 3; EvSetAwake 1] ++ [] ++ [EvEndContact] ++ [].
Proof.
  apply (Update_calls sample_env false evaluate_none true touching_contact
           (with_flags_manifold touching_contact 4
              (mkManifold (points (m_manifold touching_contact)) 0))
           [EvSetAwake 3; EvSetAwake 1; EvEndContact]).
  - split; [discriminate | reflexivity].
  - reflexivity.
Defined.

Lemma track_touching_app (events1 events2 : list ContactEvent) :
  forall touching,
    track_touching touching (events1 ++ events2) =
    match track_touching touching events1 with
    | Some touching' => track_touching touching' events2
    | None => None
    end.
Proof.
  induction events1 as [| e events1 IH]; intros touching; simpl.
  - reflexivity.
  - destruct e; try apply IH; destruct touching; try reflexivity; apply IH.
Qed.

(** X8: over consecutive calls of [Update] on one contact, each with a
    listener, the listener sees [BeginContact] and [EndContact] alternate,
    starting from the touching flag the contact had, and what it has seen
    last agrees with the touching flag the contact ends with. *)
Theorem Updates_alternate (env : ContactEnv) (calls : list UpdateCall) :
  flags_ok env ->
  Forall (fun u => uc_listener u = true) calls ->
  forall c c' events,
    Updates env calls c = Returned (c', events) ->
    track_touching (touching_flag_set env c) events
    = Some (touching_flag_set env c').
Proof.
  intros Hok Hall. induction Hall as [| u calls Hu _ IH];
    intros c c' events H; simpl in H.
  - injection H as <- <-. reflexivity.
  - destruct (Update env (uc_touchingShapes u) (uc_Evaluate u)
                (uc_listener u) c) as [[c1 ev1] | | |] eqn:H1;
      try discriminate.
    destruct (Updates env calls c1) as [[c2 ev2] | | |] eqn:H2;
      try discriminate.
    injection H as <- <-.
    rewrite track_touching_app.
    pose proof (Update_calls env _ _ _ _ _ _ Hok H1) as Hev.
    cbv zeta in Hev. rewrite Hu in Hev.
    assert (Hstep : track_touching (touching_flag_set env c) ev1
                    = Some (touching_flag_set env c1)).
    { rewrite Hev.
      destruct (IsSensor env (m_fixtureA c) || IsSensor env (m_fixtureB c)),
        (touching_flag_set env c), (touching_flag_set env c1); reflexivity. }
    rewrite Hstep. exact (IH _ _ _ H2).
Qed.

Lemma Updates_alternate_witness :
  track_touching (touching_flag_set sample_env touching_contact)
    [EvSetAwake 3; EvSetAwake 1; EvEndContact;
     EvSetAwake 3; EvSetAwake 1; EvBeginContact;
     EvPreSolve (mkManifold (points (m_manifold touching_contact)) 0)]
  = Some (touching_flag_set sample_env
            (with_flags_manifold touching_contact 6
               (mkManifold [sample_point 11 0 0; sample_point 12 0 0] 2))).
Proof.
  apply (Updates_alternate sample_env
           [mkUpdateCall false evaluate_none true;
            mkUpdateCall false evaluate_two true]).
  - split; [discriminate | reflexivity].
  - repeat constructor.
  - reflexivity.
Defined.

(** X9: for a contact that is not a sensor, when the manifold on entry and
    the manifold [Evaluate] makes have their points in use inside the
    array, [Update] returns, and each point in use of the new manifold
    carries the impulses of the first point in use of the old manifold
    with the same id key, or zero impulses when there is none; id keys,
    local points, the point count and the entries not in use are as
    [Evaluate] made them. *)
Theorem Update_warm_start (env : ContactEnv) (touchingShapes : bool)
    (Evaluate : cb2Manifold -> cb2Manifold) (listener : bool)
    (c : cb2Contact) :
  IsSensor env (m_fixtureA c) || IsSensor env (m_fixtureB c) = false ->
  manifold_in_bounds (m_manifold c) ->
  manifold_in_bounds (Evaluate (m_manifold c)) ->
  exists c' events,
    Update env touchingShapes Evaluate listener c = Returned (c', events) /\
    pointCount (m_manifold c') = pointCount (Evaluate (m_manifold c)) /\
    forall k,
      nth_error (points (m_manifold c')) k =
      if (k <? Z.to_nat (pointCount (Evaluate (m_manifold c))))%nat
      then option_map (warm_started (m_manifold c))
             (nth_error (points (Evaluate (m_manifold c))) k)
      else nth_error (points (Evaluate (m_manifold c))) k.
Proof.
  intros Hs Hold Hnew. unfold Update. rewrite Hs.
  destruct (warm_start_spec (m_manifold c) Hold
              (Z.to_nat (pointCount (Evaluate (m_manifold c)))) 0%nat
              (Evaluate (m_manifold c)))
    as (m' & Hrun & Hcount & Hpts).
  { unfold manifold_in_bounds in Hnew. lia. }
  rewrite Hrun. eexists _, _. split; [reflexivity |].
  unfold Update_finish; cbn [fst m_manifold with_flags_manifold].
  split; [exact Hcount |].
  intros k. rewrite Hpts. reflexivity.
Qed.

Lemma Update_warm_start_witness :
  exists c' events,
    Update sample_env false evaluate_two true touching_contact
    = Returned (c', events) /\
    pointCount (m_manifold c') = 2 /\
    forall k,
      nth_error (points (m_manifold c')) k =
      if (k <? 2)%nat
      then option_map (warm_started (m_manifold touching_contact))
             (nth_error [sample_point 11 9 9; sample_point 12 9 9] k)
      else nth_error [sample_point 11 9 9; sample_point 12 9 9] k.
Proof.
  apply (Update_warm_start sample_env false evaluate_two true
           touching_contact).
  - reflexivity.
  - unfold manifold_in_bounds. simpl. lia.
  - unfold manifold_in_bounds. simpl. lia.
Defined.

(** ** A new contact *)

(** X10: a contact fresh from the constructor is enabled, not touching and
    has no manifold point; its first [Update] therefore never calls
    [EndContact], calls [BeginContact] exactly when it leaves the contact
    touching and there is a listener, and, when the contact is not a
    sensor, leaves every manifold point in use with zero impulses. *)
Theorem first_Update_of_new_contact (env : ContactEnv) (fA : cb2Fixture)
    (indexA : Z) (fB : cb2Fixture) (indexB : Z) (uninit : cb2Manifold)
    (touchingShapes : bool) (Evaluate : cb2Manifold -> cb2Manifold)
    (listener : bool) (c' : cb2Contact) (events : list ContactEvent) :
  flags_ok env ->
  let c := cb2Contact_new env fA indexA fB indexB uninit in
  Update env touchingShapes Evaluate listener c = Returned (c', events) ->
  enabled_flag_set env c = true /\
  touching_flag_set env c = false /\
  pointCount (m_manifold c) = 0 /\
  ~ In EvEndContact events /\
  (In EvBeginContact events <->
   touching_flag_set env c' = true /\ listener = true) /\
  (IsSensor env fA || IsSensor env fB = false ->
   forall k mp,
     (k < Z.to_nat (pointCount (m_manifold c')))%nat ->
     nth_error (points (m_manifold c')) k = Some mp ->
     normalImpulse mp = 0%Q /\ tangentImpulse mp = 0%Q).
Proof.
  intros Hok c H.
  assert (He : enabled_flag_set env c = true).
  { unfold enabled_flag_set, c; simpl. rewrite Z.land_diag. apply Z.eqb_refl. }
  assert (Ht : touching_flag_set env c = false).
  { destruct Hok as [Hnz Hd]. unfold touching_flag_set, c; simpl.
    rewrite Hd. apply Z.eqb_neq. congruence. }
  split; [exact He |]. split; [exact Ht |]. split; [reflexivity |].
  pose proof (Update_calls env _ _ _ _ _ _ Hok H) as Hev.
  cbv zeta in Hev. fold c in Hev. rewrite Ht in Hev.
  split; [| split].
  - rewrite Hev.
    destruct (IsSensor env (m_fixtureA c) || IsSensor env (m_fixtureB c)),
      (touching_flag_set env c'), listener; simpl; intuition congruence.
  - rewrite Hev.
    destruct (IsSensor env (m_fixtureA c) || IsSensor env (m_fixtureB c)),
      (touching_flag_set env c'), listener; simpl; intuition congruence.
  - intros Hs k mp Hk Hmp.
    assert (Hold : manifold_in_bounds (m_manifold c)).
    { unfold manifold_in_bounds, c; simpl. lia. }
    unfold Update in H. cbn [m_fixtureA m_fixtureB c cb2Contact_new] in H.
    rewrite Hs in H. fold c in H.
    destruct (warm_start _ 0 _ (Evaluate (m_manifold c))) as [m' | | |] eqn:Hw;
      try discriminate.
    injection H as <- _. cbn [m_manifold with_flags_manifold fst] in Hk, Hmp.
    pose proof (warm_start_in_bounds _ _ _ _ _ (Nat.le_0_l _) Hw) as Hlen.
    destruct (warm_start_spec (m_manifold c) Hold _ _ _ Hlen)
      as (m'' & Hrun & Hcount & Hpts).
    assert (m'' = m') by congruence. subst m''.
    rewrite Hcount in Hk. rewrite Hpts in Hmp.
    replace ((0 <=? k)%nat && (k <? 0 + Z.to_nat (pointCount (Evaluate (m_manifold c))))%nat)
      with true in Hmp
      by (symmetry; apply andb_true_iff; split;
          [apply Nat.leb_le | apply Nat.ltb_lt]; lia).
    destruct (nth_error (points (Evaluate (m_manifold c))) k) as [p |];
      [| discriminate].
    injection Hmp as <-. split; reflexivity.
Qed.

Lemma first_Update_of_new_contact_witness :
  ~ In EvEndContact [EvSetAwake 3; EvSetAwake 1; EvBeginContact; EvPreSolve (mkManifold [] 0)].
Proof.
  apply (first_Update_of_new_contact sample_env polygonA 0 circleA 0
           (mkManifold [] 0) false evaluate_two true
           (with_flags_manifold
              (cb2Contact_new sample_env polygonA 0 circleA 0 (mkManifold [] 0))
              6 (mkManifold [sample_point 11 0 0; sample_point 12 0 0] 2))
           [EvSetAwake 3; EvSetAwake 1; EvBeginContact;
            EvPreSolve (mkManifold [] 0)]).
  - split; [discriminate | reflexivity].
  - reflexivity.
Defined.

(** ** The registry and the life of a contact *)

(** X11: every registry built from the zeroed one by calls of [AddType] is
    mirrored: the two orders of a pair of types hold the same creation and
    destruction functions, both or neither; of two different registered
    types exactly one order is primary, and a registered pair of equal
    types is primary. *)
Theorem AddType_keeps_mirrored (regs : Registers) :
  built regs -> mirrored regs.
Proof.
  induction 1 as [| createF destroyF type1 type2 regs _ IH].
  - intros a b. unfold zero_registers; simpl.
    repeat split; try reflexivity; intros H; congruence.
  - intros a b.
    destruct (IH a b) as (C1 & D1 & N1 & P1).
    destruct (IH b a) as (C2 & D2 & N2 & P2).
    unfold mirrored, AddType, set_register.
    destruct a, b, type1, type2; cbn [ShapeType_eqb andb negb];
      (split; [first [reflexivity | exact C1] |]);
      (split; [first [reflexivity | exact D1] |]);
      (split; [first [exact N1 | split; intros E; discriminate E] |]);
      first [exact P1 | intros _; reflexivity].
Qed.

Lemma AddType_keeps_mirrored_witness : mirrored standard_registers.
Proof.
  apply AddType_keeps_mirrored.
  unfold standard_registers, InitializeRegisters.
  repeat apply built_AddType. apply built_zero.
Defined.

Lemma reachable_initialized (g : ContactStatics) (fA : cb2Fixture) (iA : Z)
    (fB : cb2Fixture) (iB al : Z) :
  reachable g ->
  fst (Create g fA iA fB iB al) = mkStatics standard_registers true.
Proof.
  intros H. destruct (reachable_registers g H) as [-> | ->];
    unfold Create; simpl;
    destruct (createFcn _); try destruct (primary _); reflexivity.
Qed.

(** X12: a contact that holds the fixtures a call of [Create] passed to a
    creation function, in that order, is accepted by [Destroy] in the
    statics [Create] left: no assertion fails, and the last call [Destroy]
    makes is the destruction function of the class whose creation function
    [Create] called.  With the statics as loaded, before any [Create],
    [Destroy] fails its assertion. *)
Theorem Destroy_matches_Create (env : ContactEnv) (g : ContactStatics)
    (fA : cb2Fixture) (iA : Z) (fB : cb2Fixture) (iB al al' : Z)
    (call : CreateCall) (c : cb2Contact) :
  reachable g ->
  snd (Create g fA iA fB iB al) = Some call ->
  m_fixtureA c = cc_fixtureA call ->
  m_fixtureB c = cc_fixtureB call ->
  (exists events,
     Destroy env (fst (Create g fA iA fB iB al)) c al'
     = Destroyed (events ++ [EvDestroyFcn (cc_fcn call) al'])) /\
  Destroy env initial_statics c al' = DestroyAssertFailed.
Proof.
  intros Hg Hcall HA HB. split; [| reflexivity].
  rewrite (reachable_initialized g _ _ _ _ _ Hg).
  rewrite (Create_result g _ _ _ _ _ Hg) in Hcall.
  unfold Destroy. cbn [s_initialized s_registers]. rewrite HA, HB.
  destruct fA as [ida ta], fB as [idb tb]. cbn [GetType] in Hcall.
  destruct ta, tb; cbn in Hcall; try discriminate Hcall;
    injection Hcall as <-; cbn; eexists; reflexivity.
Qed.

Lemma Destroy_matches_Create_witness :
  exists events,
    Destroy sample_env (fst (Create initial_statics circleA 0 polygonA 0 9))
      touching_contact 9
    = Destroyed (events ++ [EvDestroyFcn cb2PolygonAndCircleContact 9]).
Proof.
  apply (Destroy_matches_Create sample_env initial_statics circleA 0
           polygonA 0 9 9
           (mkCreateCall cb2PolygonAndCircleContact polygonA 0 circleA 0 9)
           touching_contact reachable_initial).
  - reflexivity.
  - reflexivity.
  - reflexivity.
Defined.

(** * No leaf twice *)

Lemma leaf_under_node_under (t : cb2DynamicTree) (i x : Z) :
  leaf_under t i x -> node_under t i x.
Proof.
  induction 1 as [i n Hnn Hn Hleaf
                 | i n x Hnn Hn Hleaf _ IH
                 | i n x Hnn Hn Hleaf _ IH].
  - exact (under_here t i n Hnn Hn).
  - exact (under_child1 t i n x Hnn Hn Hleaf IH).
  - exact (under_child2 t i n x Hnn Hn Hleaf IH).
Qed.

Lemma leaves_step (t : cb2DynamicTree) (d : nat) (i : Z) (n : cb2TreeNode)
    (ls : list Z) :
  i <> cb2_nullNode -> node_at t i = Some n -> IsLeaf n = false ->
  leaves d t i = Some ls ->
  exists d' l2 l1,
    d = Datatypes.S d' /\
    leaves d' t (child2 n) = Some l2 /\
    leaves d' t (child1 n) = Some l1 /\ ls = l2 ++ l1.
Proof.
  intros Hnn Hn Hleaf H. apply Z.eqb_neq in Hnn.
  destruct d as [| d]; simpl in H; rewrite Hnn in H; [discriminate |].
  rewrite Hn, Hleaf in H.
  destruct (leaves d t (child2 n)) as [l2 |] eqn:H2; [| discriminate].
  destruct (leaves d t (child1 n)) as [l1 |] eqn:H1; [| discriminate].
  injection H as <-. exists d, l2, l1. repeat split; assumption.
Qed.

(** The walk is defined, at a depth no greater, at every node below. *)
Lemma leaves_below (t : cb2DynamicTree) (c y : Z) :
  node_under t c y ->
  forall d ls,
    leaves d t c = Some ls ->
    exists d' ls',
      (d' <= d)%nat /\ leaves d' t y = Some ls' /\ (y <> c -> (d' < d)%nat).
Proof.
  induction 1 as [c n Hnn Hn
                 | c n y Hnn Hn Hleaf _ IH
                 | c n y Hnn Hn Hleaf _ IH]; intros d ls Hls.
  - exists d, ls. split; [lia |]. split; [exact Hls |]. congruence.
  - destruct (leaves_step t d c n ls Hnn Hn Hleaf Hls)
      as (d0 & l2 & l1 & -> & H2 & H1 & _).
    destruct (IH _ _ H1) as (d' & ls' & Hle & Hy & _).
    exists d', ls'. split; [lia |]. split; [exact Hy |]. intros _. lia.
  - destruct (leaves_step t d c n ls Hnn Hn Hleaf Hls)
      as (d0 & l2 & l1 & -> & H2 & H1 & _).
    destruct (IH _ _ H2) as (d' & ls' & Hle & Hy & _).
    exists d', ls'. split; [lia |]. split; [exact Hy |]. intros _. lia.
Qed.

(** A node of a finite tree is not below one of its children. *)
Lemma no_cycle (t : cb2DynamicTree) (i : Z) (n : cb2TreeNode) :
  i <> cb2_nullNode -> node_at t i = Some n -> IsLeaf n = false ->
  forall d ls,
    leaves d t i = Some ls ->
    ~ node_under t (child1 n) i /\ ~ node_under t (child2 n) i.
Proof.
  intros Hnn Hn Hleaf d.
  induction d as [d IH] using lt_wf_ind. intros ls Hls.
  destruct (leaves_step t d i n ls Hnn Hn Hleaf Hls)
    as (d0 & l2 & l1 & -> & H2 & H1 & _).
  split; intros Hu.
  - destruct (leaves_below t _ _ Hu _ _ H1) as (d' & ls' & Hle & Hi & _).
    destruct (IH d' ltac:(lia) ls' Hi) as [N1 _]. exact (N1 Hu).
  - destruct (leaves_below t _ _ Hu _ _ H2) as (d' & ls' & Hle & Hi & _).
    destruct (IH d' ltac:(lia) ls' Hi) as [_ N2]. exact (N2 Hu).
Qed.

Lemma parents_ok_linked (t : cb2DynamicTree) (c y : Z) :
  node_under t c y ->
  forall d ls n,
    leaves d t c = Some ls -> parents_ok d t c = true ->
    node_at t y = Some n -> IsLeaf n = false -> links_ok t y n = true.
Proof.
  induction 1 as [c n0 Hnn Hn0
                 | c n0 y Hnn Hn0 Hleaf0 _ IH
                 | c n0 y Hnn Hn0 Hleaf0 _ IH];
    intros d ls n Hls Hok Hn Hleaf.
  - assert (n0 = n) by congruence. subst n0.
    destruct (leaves_step t d c n ls Hnn Hn Hleaf Hls)
      as (d0 & l2 & l1 & -> & _).
    simpl in Hok. apply Z.eqb_neq in Hnn. rewrite Hnn, Hn, Hleaf in Hok.
    simpl in Hok. rewrite !andb_true_iff in Hok. tauto.
  - destruct (leaves_step t d c n0 ls Hnn Hn0 Hleaf0 Hls)
      as (d0 & l2 & l1 & -> & H2 & H1 & _).
    simpl in Hok. apply Z.eqb_neq in Hnn. rewrite Hnn, Hn0, Hleaf0 in Hok.
    simpl in Hok. rewrite !andb_true_iff in Hok.
    apply (IH d0 l1 n H1); tauto.
  - destruct (leaves_step t d c n0 ls Hnn Hn0 Hleaf0 Hls)
      as (d0 & l2 & l1 & -> & H2 & H1 & _).
    simpl in Hok. apply Z.eqb_neq in Hnn. rewrite Hnn, Hn0, Hleaf0 in Hok.
    simpl in Hok. rewrite !andb_true_iff in Hok.
    apply (IH d0 l2 n H2); tauto.
Qed.

Lemma links_ok_parents (t : cb2DynamicTree) (i : Z) (n : cb2TreeNode) :
  links_ok t i n = true ->
  parent_of t (child1 n) = i /\ parent_of t (child2 n) = i /\
  child1 n <> child2 n.
Proof.
  unfold links_ok, child_has_parent, parent_of.
  rewrite !andb_true_iff, negb_true_iff. intros [[H1 H2] H3].
  destruct (node_at t (child1 n)) as [c1 |]; [| discriminate].
  destruct (node_at t (child2 n)) as [c2 |]; [| discriminate].
  apply Z.eqb_eq in H1, H2. apply Z.eqb_neq in H3. auto.
Qed.

Lemma linked_child (t : cb2DynamicTree) (c : Z) (n : cb2TreeNode) :
  c <> cb2_nullNode -> node_at t c = Some n -> IsLeaf n = false ->
  linked t c -> linked t (child1 n) /\ linked t (child2 n).
Proof.
  intros Hnn Hn Hleaf Hl. split; intros j m Hu.
  - apply Hl. exact (under_child1 t c n j Hnn Hn Hleaf Hu).
  - apply Hl. exact (under_child2 t c n j Hnn Hn Hleaf Hu).
Qed.

(** With the links in order, the parent fields lead from a node below [c]
    up to [c], through nodes below [c]. *)
Lemma up_chain (t : cb2DynamicTree) (c y : Z) :
  node_under t c y ->
  linked t c ->
  exists k,
    up t k y = c /\ forall j, (j <= k)%nat -> node_under t c (up t j y).
Proof.
  induction 1 as [c n Hnn Hn
                 | c n y Hnn Hn Hleaf _ IH
                 | c n y Hnn Hn Hleaf _ IH]; intros Hl.
  - exists 0%nat. split; [reflexivity |].
    intros j Hj. replace j with 0%nat by lia.
    exact (under_here t c n Hnn Hn).
  - destruct (linked_child t c n Hnn Hn Hleaf Hl) as [Hl1 _].
    destruct (IH Hl1) as (k & Hk & Hchain).
    destruct (links_ok_parents t c n
                (Hl c n (under_here t c n Hnn Hn) Hn Hleaf)) as (P1 & _ & _).
    exists (Datatypes.S k). split.
    + simpl. rewrite Hk. exact P1.
    + intros j Hj. destruct (Nat.eq_dec j (Datatypes.S k)) as [-> | Hne].
      * simpl. rewrite Hk, P1. exact (under_here t c n Hnn Hn).
      * apply (under_child1 t c n _ Hnn Hn Hleaf). apply Hchain. lia.
  - destruct (linked_child t c n Hnn Hn Hleaf Hl) as [_ Hl2].
    destruct (IH Hl2) as (k & Hk & Hchain).
    destruct (links_ok_parents t c n
                (Hl c n (under_here t c n Hnn Hn) Hn Hleaf)) as (_ & P2 & _).
    exists (Datatypes.S k). split.
    + simpl. rewrite Hk. exact P2.
    + intros j Hj. destruct (Nat.eq_dec j (Datatypes.S k)) as [-> | Hne].
      * simpl. rewrite Hk, P2. exact (under_here t c n Hnn Hn).
      * apply (under_child2 t c n _ Hnn Hn Hleaf). apply Hchain. lia.
Qed.

(** No node lies below both children of a node. *)
Lemma children_disjoint (t : cb2DynamicTree) (i y : Z) (n : cb2TreeNode)
    (d : nat) (ls : list Z) :
  i <> cb2_nullNode -> node_at t i = Some n -> IsLeaf n = false ->
  leaves d t i = Some ls -> linked t i ->
  node_under t (child1 n) y -> node_under t (child2 n) y -> False.
Proof.
  intros Hnn Hn Hleaf Hls Hl H1 H2.
  destruct (linked_child t i n Hnn Hn Hleaf Hl) as [Hl1 Hl2].
  destruct (up_chain t _ _ H1 Hl1) as (k1 & E1 & C1).
  destruct (up_chain t _ _ H2 Hl2) as (k2 & E2 & C2).
  destruct (links_ok_parents t i n
              (Hl i n (under_here t i n Hnn Hn) Hn Hleaf)) as (P1 & P2 & Hne).
  destruct (no_cycle t i n Hnn Hn Hleaf d ls Hls) as [N1 N2].
  destruct (lt_eq_lt_dec k1 k2) as [[Hlt | Heq] | Hgt].
  - apply N2. specialize (C2 (Datatypes.S k1) ltac:(lia)).
    simpl in C2. rewrite E1, P1 in C2. exact C2.
  - subst k2. congruence.
  - apply N1. specialize (C1 (Datatypes.S k2) ltac:(lia)).
    simpl in C1. rewrite E2, P2 in C1. exact C1.
Qed.

Lemma leaves_NoDup (t : cb2DynamicTree) (d : nat) :
  forall c ls, leaves d t c = Some ls -> linked t c -> NoDup ls.
Proof.
  induction d as [| d IH]; intros c ls Hls Hl.
  - simpl in Hls. destruct (c =? cb2_nullNode); [| discriminate].
    injection Hls as <-. constructor.
  - pose proof Hls as Hls0. simpl in Hls.
    destruct (c =? cb2_nullNode) eqn:Hnull.
    { injection Hls as <-. constructor. }
    apply Z.eqb_neq in Hnull.
    destruct (node_at t c) as [n |] eqn:Hn; [| discriminate].
    destruct (IsLeaf n) eqn:Hleaf.
    { injection Hls as <-. repeat constructor. intros []. }
    destruct (leaves d t (child2 n)) as [l2 |] eqn:H2; [| discriminate].
    destruct (leaves d t (child1 n)) as [l1 |] eqn:H1; [| discriminate].
    injection Hls as <-.
    destruct (linked_child t c n Hnull Hn Hleaf Hl) as [Hl1 Hl2].
    apply NoDup_app.
    + exact (IH _ _ H2 Hl2).
    + exact (IH _ _ H1 Hl1).
    + intros x Hx2 Hx1.
      apply (children_disjoint t c x n _ _ Hnull Hn Hleaf Hls0 Hl).
      * apply leaf_under_node_under.
        exact (leaves_leaf_under t d _ _ x H1 Hx1).
      * apply leaf_under_node_under.
        exact (leaves_leaf_under t d _ _ x H2 Hx2).
Qed.

Lemma subseq_NoDup {A : Type} (a b : list A) :
  subseq a b -> NoDup b -> NoDup a.
Proof.
  induction 1 as [| x l1 l2 Hs IH | x l1 l2 Hs IH]; intros Hb.
  - constructor.
  - inversion Hb; subst. auto.
  - inversion Hb as [| y l Hnin Hl]; subst. constructor.
    + intros Hin. apply Hnin. exact (subseq_In _ _ _ Hs Hin).
    + auto.
Qed.

(** On a finite tree the pruned walk is defined and reports some of the
    leaves, in the order of the walk. *)
Lemma Query_rec_subseq (t : cb2DynamicTree) (box : cb2AABB) (d : nat) :
  forall i ls,
    leaves d t i = Some ls ->
    exists l, Query_rec d t box i = Some l /\ subseq l ls.
Proof.
  induction d as [| d IH]; intros i ls Hls; simpl in Hls |- *.
  - destruct (i =? cb2_nullNode); [| discriminate].
    injection Hls as <-. exists []. split; [reflexivity | constructor].
  - destruct (i =? cb2_nullNode).
    { injection Hls as <-. exists []. split; [reflexivity | constructor]. }
    destruct (node_at t i) as [n |]; [| discriminate].
    destruct (cb2TestOverlap (aabb n) box).
    + destruct (IsLeaf n).
      * injection Hls as <-. exists [i]. split; [reflexivity |].
        apply subseq_refl.
      * destruct (leaves d t (child2 n)) as [l2 |] eqn:H2; [| discriminate].
        destruct (leaves d t (child1 n)) as [l1 |] eqn:H1; [| discriminate].
        injection Hls as <-.
        destruct (IH _ _ H2) as (q2 & -> & S2).
        destruct (IH _ _ H1) as (q1 & -> & S1).
        exists (q2 ++ q1). split; [reflexivity |].
        apply subseq_app; assumption.
    + exists []. split; [reflexivity |]. apply subseq_nil_l.
Qed.

Lemma subseq_prefix {A : Type} (a rest b : list A) :
  subseq (a ++ rest) b -> subseq a b.
Proof.
  revert a rest. induction b as [| x b IH]; intros a rest H.
  - inversion H as [E | |]. destruct a; [constructor | discriminate].
  - inversion H as [| y l1 l2 Hs | y l1 l2 Hs]; subst.
    + apply subseq_skip. exact (IH _ _ Hs).
    + destruct a as [| z a].
      * apply subseq_nil_l.
      * simpl in H0. injection H0 as -> ->.
        apply subseq_take. exact (IH _ _ Hs).
Qed.

(** X13: on a finite tree in which every internal node has two different
    children that name it as parent, neither [Query] nor [RayCast] passes a
    node index to the callback twice in one traversal, whatever the
    visitor does; both return. *)
Theorem no_leaf_twice {S : Type} (ar : FloatArith) (normalize : Vec2 -> Vec2)
    (qcallback : QueryVisitor S) (rcallback : RayCastVisitor S)
    (t : cb2DynamicTree) (box : cb2AABB) (input : cb2RayCastInput) (s : S)
    (d : nat) (ls : list Z) :
  leaves d t (m_root t) = Some ls ->
  parents_ok d t (m_root t) = true ->
  (exists turns s' calls,
     (forall fuel,
        (turns <= fuel)%nat ->
        Query fuel (logQuery qcallback) t box (s, [])
        = Returned (t, (s', calls))) /\
     NoDup (map fst calls)) /\
  ((0 < lengthSquared (vsub (p2 input) (p1 input)))%Q ->
   exists turns s' calls,
     (forall fuel,
        (turns <= fuel)%nat ->
        RayCast ar normalize fuel (logRay rcallback) t input (s, [])
        = Returned (t, (s', calls))) /\
     NoDup (map rc_node calls)).
Proof.
  intros Hls Hok.
  assert (Hl : linked t (m_root t)).
  { intros j n Hu Hn Hleaf.
    exact (parents_ok_linked t _ _ Hu d ls n Hls Hok Hn Hleaf). }
  pose proof (leaves_NoDup t d _ _ Hls Hl) as Hnd.
  split.
  - destruct (Query_rec_subseq t box d _ _ Hls) as (l & Hrec & Hsub).
    destruct (Query_loop_rec qcallback t box d _ _ Hrec [] s [])
      as (k & s' & calls & rest & E & _ & R).
    assert (Hcalls : NoDup (map fst calls)).
    { subst l. exact (subseq_NoDup _ _ (subseq_prefix _ _ _ Hsub) Hnd). }
    destruct (forallb snd calls).
    + destruct R as [_ R]. exists (k + 1)%nat, s', calls.
      split; [| exact Hcalls].
      intros fuel Hfuel. unfold Query.
      replace fuel with (k + Datatypes.S (fuel - k - 1))%nat by lia.
      rewrite R. reflexivity.
    + exists k, s', calls. split; [| exact Hcalls].
      intros fuel Hfuel. unfold Query.
      replace fuel with (k + (fuel - k))%nat by lia. apply R.
  - intros Hlen. apply Qltb_true in Hlen.
    set (v := cb2Cross 1 (normalize (vsub (p2 input) (p1 input)))).
    destruct (RayCast_loop_leaves ar rcallback t input v (cb2Abs v) d _ _ Hls
                [] (maxFraction input) s [])
      as (k & s' & calls & Hsub & R).
    pose proof (subseq_NoDup _ _ Hsub Hnd) as Hcalls.
    destruct (existsb (fun c => Qeq_bool (rc_value c) 0) calls).
    + exists k, s', calls. split; [| exact Hcalls].
      intros fuel Hfuel. unfold RayCast. rewrite Hlen. fold v.
      replace fuel with (k + (fuel - k))%nat by lia. apply R.
    + exists (k + 1)%nat, s', calls. split; [| exact Hcalls].
      intros fuel Hfuel. unfold RayCast. rewrite Hlen. fold v.
      replace fuel with (k + Datatypes.S (fuel - k - 1))%nat by lia.
      rewrite R. reflexivity.
Qed.

Lemma no_leaf_twice_witness :
  exists turns s' calls,
    (forall fuel,
       (turns <= fuel)%nat ->
       Query fuel (logQuery accept_all) sample_tree (box 0 0 20 2) (tt, [])
       = Returned (sample_tree, (s', calls))) /\
    NoDup (map fst calls).
Proof.
  apply (proj1 (no_leaf_twice float32 normalize_axis accept_all ignore_all
                  sample_tree (box 0 0 20 2) sample_ray tt 3 [2; 3; 4]
                  eq_refl eq_refl)).
Defined.

(** * What the traversals depend on *)

Lemma same_shape_node (t1 t2 : cb2DynamicTree) (i : Z) :
  same_shape t1 t2 ->
  match node_at t1 i, node_at t2 i with
  | Some n1, Some n2 =>
    aabb n1 = aabb n2 /\ child1 n1 = child1 n2 /\ child2 n1 = child2 n2
  | None, None => True
  | _, _ => False
  end.
Proof.
  intros [_ H]. specialize (H i).
  destruct (node_at t1 i) as [n1 |], (node_at t2 i) as [n2 |];
    simpl in H; try discriminate; auto.
  unfold node_view in H. injection H as H1 H2 H3. auto.
Qed.

Lemma Query_loop_same_shape {S : Type} (callback : QueryVisitor S)
    (t1 t2 : cb2DynamicTree) (box : cb2AABB) (fuel : nat) :
  same_shape t1 t2 ->
  forall stack s,
    visitor_outcome (Query_loop fuel callback t1 box stack s)
    = visitor_outcome (Query_loop fuel callback t2 box stack s).
Proof.
  intros Hsame. induction fuel as [| fuel IH]; intros stack s; simpl.
  - reflexivity.
  - destruct stack as [| nodeId stack]; [reflexivity |].
    destruct (nodeId =? cb2_nullNode); [apply IH |].
    pose proof (same_shape_node t1 t2 nodeId Hsame) as Hn.
    destruct (node_at t1 nodeId) as [n1 |], (node_at t2 nodeId) as [n2 |];
      try contradiction; [| reflexivity].
    destruct Hn as (Ha & H1 & H2). unfold IsLeaf. rewrite Ha, H1, H2.
    destruct (cb2TestOverlap (aabb n2) box); [| apply IH].
    destruct (child1 n2 =? cb2_nullNode); [| apply IH].
    destruct (fst (callback s nodeId)); [apply IH | reflexivity].
Qed.

Lemma RayCast_loop_same_shape {S : Type} (ar : FloatArith)
    (callback : RayCastVisitor S)
    (t1 t2 : cb2DynamicTree) (input : cb2RayCastInput) (v abs_v : Vec2)
    (fuel : nat) :
  same_shape t1 t2 ->
  forall stack f seg s,
    visitor_outcome
      (RayCast_loop ar fuel callback t1 input v abs_v stack f seg s)
    = visitor_outcome
        (RayCast_loop ar fuel callback t2 input v abs_v stack f seg s).
Proof.
  intros Hsame. induction fuel as [| fuel IH]; intros stack f seg s; simpl.
  - reflexivity.
  - destruct stack as [| nodeId stack]; [reflexivity |].
    destruct (nodeId =? cb2_nullNode); [apply IH |].
    pose proof (same_shape_node t1 t2 nodeId Hsame) as Hn.
    destruct (node_at t1 nodeId) as [n1 |], (node_at t2 nodeId) as [n2 |];
      try contradiction; [| reflexivity].
    destruct Hn as (Ha & H1 & H2). unfold IsLeaf. rewrite Ha, H1, H2.
    destruct (negb (cb2TestOverlap (aabb n2) seg)); [apply IH |].
    destruct (Qltb 0 (separation ar v abs_v (p1 input) (aabb n2)));
      [apply IH |].
    destruct (child1 n2 =? cb2_nullNode); [| apply IH].
    destruct (Qeq_bool _ 0); [reflexivity |].
    destruct (Qltb 0 _); apply IH.
Qed.

(** X14: [Query] and [RayCast] read nothing of the tree but the root index
    and the boxes and child indices of the nodes: on two trees that agree
    on these, whatever their user data, parent/next fields, heights, free
    list and counters, they end the same way and leave the visitor in the
    same state, callback for callback. *)
Theorem traversals_read_shape_only {S : Type} (ar : FloatArith)
    (normalize : Vec2 -> Vec2)
    (fuel : nat) (qcallback : QueryVisitor S) (rcallback : RayCastVisitor S)
    (t1 t2 : cb2DynamicTree) (box : cb2AABB) (input : cb2RayCastInput)
    (s : S) :
  same_shape t1 t2 ->
  visitor_outcome (Query fuel (logQuery qcallback) t1 box (s, []))
  = visitor_outcome (Query fuel (logQuery qcallback) t2 box (s, [])) /\
  visitor_outcome
    (RayCast ar normalize fuel (logRay rcallback) t1 input (s, []))
  = visitor_outcome
      (RayCast ar normalize fuel (logRay rcallback) t2 input (s, [])).
Proof.
  intros Hsame. split.
  - unfold Query. rewrite (proj1 Hsame).
    apply Query_loop_same_shape. exact Hsame.
  - unfold RayCast. rewrite (proj1 Hsame).
    destruct (Qltb 0 (lengthSquared (vsub (p2 input) (p1 input))));
      [| reflexivity].
    apply RayCast_loop_same_shape. exact Hsame.
Qed.

Lemma traversals_read_shape_only_witness :
  visitor_outcome
    (Query 20 (logQuery accept_all) sample_tree (box 0 0 2 2) (tt, []))
  = visitor_outcome
      (Query 20 (logQuery accept_all) sample_tree_scrambled (box 0 0 2 2)
         (tt, [])).
Proof.
  apply (traversals_read_shape_only float32 normalize_axis 20 accept_all
           ignore_all
           sample_tree sample_tree_scrambled (box 0 0 2 2) sample_ray tt).
  split; [reflexivity |].
  intros i. unfold node_at.
  destruct (0 <=? i) eqn:E; [| reflexivity]. simpl.
  destruct (Z.to_nat i) as [| [| [| [| [| k]]]]]; reflexivity.
Defined.

(** ** Create and the statics *)

(** X15: in every state the statics can reach, [Create] leaves the statics
    initialised and holding the registry of [InitializeRegisters], and the
    call it makes is the one it would make from the statics as loaded: the
    registry is set up once and the result of [Create] does not depend on
    the calls made before. *)
Theorem Create_is_history_free (g : ContactStatics) (fixtureA : cb2Fixture)
    (indexA : Z) (fixtureB : cb2Fixture) (indexB allocator : Z) :
  reachable g ->
  fst (Create g fixtureA indexA fixtureB indexB allocator)
  = mkStatics standard_registers true /\
  snd (Create g fixtureA indexA fixtureB indexB allocator)
  = snd (Create initial_statics fixtureA indexA fixtureB indexB allocator).
Proof.
  intros H. split.
  - exact (reachable_initialized g _ _ _ _ _ H).
  - rewrite (Create_result g _ _ _ _ _ H).
    rewrite (Create_result initial_statics _ _ _ _ _ reachable_initial).
    reflexivity.
Qed.

Lemma Create_is_history_free_witness :
  snd (Create (fst (Create initial_statics circleA 0 circleB 0 9))
         polygonA 0 circleA 1 9)
  = snd (Create initial_statics polygonA 0 circleA 1 9).
Proof.
  apply (Create_is_history_free
           (fst (Create initial_statics circleA 0 circleB 0 9))
           polygonA 0 circleA 1 9).
  apply reachable_Create. apply reachable_initial.
Defined.
